(** * Hash-mixing primitives of [hash.c]

    A shallow embedding of the C stubs of [src/hash.c] (the [Ppx_*]
    primitives used by derived structural hash functions) together with the
    properties stated for them.

    Machine integers are integers of [Z] with the wrap-around of each C
    conversion written out:
    - [uint32_t] is a [Z] in [[0, 2^32)], obtained with [u32];
    - [int] is a [Z] in [[-2^31, 2^31)], obtained with [s32];
    - [intnat] / [value] is a [Z] in [[-2^63, 2^63)], obtained with [snat]
      (a 64-bit platform: the tagged integer must carry the 32 bits of the
      hash state);
    - [mlsize_t] is a [Z] in [[0, 2^64)], obtained with [usize].
    A byte buffer is a [list byte]; reading past its end is an error of the
    model ([OutOfBounds]), and the loop of [Ppx_fold_blob] is run with fuel
    ([OutOfFuel] when it is exhausted). *)

From Stdlib Require Import ZArith List Lia Bool.
From Stdlib Require Import Strings.Byte.
Import ListNotations.

Local Open Scope Z_scope.

(** ** Machine integers *)

Definition u32 (x : Z) : Z := x mod 2 ^ 32.

Definition s32 (x : Z) : Z := (x + 2 ^ 31) mod 2 ^ 32 - 2 ^ 31.

Definition snat (x : Z) : Z := (x + 2 ^ 63) mod 2 ^ 64 - 2 ^ 63.

Definition usize (x : Z) : Z := x mod 2 ^ 64.

Definition is_u32 (x : Z) : Prop := 0 <= x < 2 ^ 32.

Definition is_intnat (x : Z) : Prop := - 2 ^ 63 <= x < 2 ^ 63.


(** ** The OCaml value macros of [caml/mlvalues.h] used by the stubs

    An immediate [value] is the machine word [2 * n + 1]. *)

(** [#define Val_long(x) ((intnat) (((uintnat)(x) << 1)) + 1)] *)
Definition Val_long (x : Z) : Z := snat (usize (Z.shiftl (usize x) 1)) + 1.

(** [#define Long_val(x) ((x) >> 1)] on the signed [intnat]. *)
Definition Long_val (v : Z) : Z := Z.shiftr v 1.

(** [#define Val_int(x) Val_long(x)] *)
Definition Val_int (x : Z) : Z := Val_long x.

(** [#define Int_val(x) ((int) Long_val(x))] *)
Definition Int_val (v : Z) : Z := s32 (Long_val v).

(** The integers an OCaml [int] can hold (63 bits). *)
Definition is_long (n : Z) : Prop := - 2 ^ 62 <= n < 2 ^ 62.

(** The machine words that are immediate values: in range, low bit set. *)
Definition is_immediate (v : Z) : Prop := is_intnat v /\ Z.testbit v 0 = true.


(** ** Outcomes of the code that reads a buffer *)

Inductive outcome (A : Type) : Type :=
| Done (a : A)
| OutOfBounds
| OutOfFuel.

Arguments Done {A} a.
Arguments OutOfBounds {A}.
Arguments OutOfFuel {A}.

Definition bind {A B : Type} (m : outcome A) (k : A -> outcome B) : outcome B :=
  match m with
  | Done a => k a
  | OutOfBounds => OutOfBounds
  | OutOfFuel => OutOfFuel
  end.

Notation "x <- m ;; k" := (bind m (fun x => k))
  (at level 61, m at next level, right associativity).

(** ** The macros of [hash.c] *)

(** [#define ROTL32(x,n) ((x) << n | (x) >> (32-n))] on a [uint32_t]. *)
Definition ROTL32 (x n : Z) : Z :=
  Z.lor (u32 (Z.shiftl x n)) (Z.shiftr x (32 - n)).

(** [MIX(h,d)]: the statements of the macro in order; [d] is a scratch
    variable of the caller, the value of the macro is the new [h]. *)
Definition MIX (h d : Z) : Z :=
  let d := u32 (d * 0xcc9e2d51) in
  let d := ROTL32 d 15 in
  let d := u32 (d * 0x1b873593) in
  let h := Z.lxor h d in
  let h := ROTL32 h 13 in
  let h := u32 (h * 5 + 0xe6546b64) in
  h.

(** [FINAL_MIX(h)] *)
Definition FINAL_MIX (h : Z) : Z :=
  let h := Z.lxor h (Z.shiftr h 16) in
  let h := u32 (h * 0x85ebca6b) in
  let h := Z.lxor h (Z.shiftr h 13) in
  let h := u32 (h * 0xc2b2ae35) in
  let h := Z.lxor h (Z.shiftr h 16) in
  h.

(** [FINAL_MIX_AND_RETURN(h)]: the same statements, then
    [return Val_int(h & 0x3FFFFFFFU)]. *)
Definition FINAL_MIX_AND_RETURN (h : Z) : Z :=
  let h := Z.lxor h (Z.shiftr h 16) in
  let h := u32 (h * 0x85ebca6b) in
  let h := Z.lxor h (Z.shiftr h 13) in
  let h := u32 (h * 0xc2b2ae35) in
  let h := Z.lxor h (Z.shiftr h 16) in
  Val_int (Z.land h 0x3FFFFFFF).

(** ** [Ppx_get_hash_value] *)

Definition Ppx_get_hash_value (st : Z) : Z :=
  let h := u32 (Int_val st) in
  let h := FINAL_MIX h in
  Val_int (Z.land h 0x3FFFFFFF).

(** ** [Ppx_fold_blob] *)

Definition byte_val (b : byte) : Z := Z.of_N (Byte.to_N b).

(** [s[i]]: a read of the buffer, which holds exactly the bytes of [s]. *)
Definition byte_at (s : list byte) (i : Z) : outcome Z :=
  match nth_error s (Z.to_nat i) with
  | Some b => Done (byte_val b)
  | None => OutOfBounds
  end.

Section Blob.

(** Whether the file is compiled with [ARCH_BIG_ENDIAN] defined. *)
Variable ARCH_BIG_ENDIAN : bool.

(** The block word [w] read at index [i]. With [ARCH_BIG_ENDIAN] the four
    bytes are or-ed after promotion and the result converted to
    [uint32_t]; without it the host is little-endian and the 32-bit load
    [*((uint32_t * ) &(s[i]))] reads the same four bytes, the first one
    least significant. *)
Definition load_block (s : list byte) (i : Z) : outcome Z :=
  b0 <- byte_at s i ;;
  b1 <- byte_at s (usize (i + 1)) ;;
  b2 <- byte_at s (usize (i + 2)) ;;
  b3 <- byte_at s (usize (i + 3)) ;;
  Done (if ARCH_BIG_ENDIAN
        then u32 (Z.lor (Z.lor (Z.lor b0 (Z.shiftl b1 8)) (Z.shiftl b2 16))
                        (Z.shiftl b3 24))
        else b0 + 2 ^ 8 * b1 + 2 ^ 16 * b2 + 2 ^ 24 * b3).

(** [for (i = 0; i + 4 <= len; i += 4) { w = ...; MIX(h, w); }] started at
    index [i]; the result is the pair of [h] and [i] when the loop exits.
    [i] is an [mlsize_t], so [i + 4] wraps. *)
Fixpoint blob_blocks (fuel : nat) (h i len : Z) (s : list byte)
  : outcome (Z * Z) :=
  if usize (i + 4) <=? len then
    match fuel with
    | O => OutOfFuel
    | S fuel' =>
        w <- load_block s i ;;
        blob_blocks fuel' (MIX h w) (usize (i + 4)) len s
    end
  else Done (h, i).

(** The three labels of [switch (len & 3)], each falling through to the
    next. *)
Definition tail_case1 (h w i : Z) (s : list byte) : outcome Z :=
  b <- byte_at s i ;;
  let w := Z.lor w (u32 b) in
  Done (MIX h w).

Definition tail_case2 (h w i : Z) (s : list byte) : outcome Z :=
  b <- byte_at s (usize (i + 1)) ;;
  let w := Z.lor w (u32 (Z.shiftl b 8)) in
  tail_case1 h w i s.

Definition tail_case3 (h i : Z) (s : list byte) : outcome Z :=
  b <- byte_at s (usize (i + 2)) ;;
  let w := u32 (Z.shiftl b 16) in
  tail_case2 h w i s.

Definition blob_tail (h i len : Z) (s : list byte) : outcome Z :=
  let w := 0 in
  match Z.land len 3 with
  | 3 => tail_case3 h i s
  | 2 => tail_case2 h w i s
  | 1 => tail_case1 h w i s
  | _ => Done h
  end.

Definition Ppx_fold_blob_fuel (fuel : nat) (h len : Z) (s : list byte)
  : outcome Z :=
  p <- blob_blocks fuel h 0 len s ;;
  let '(h, i) := p in
  h <- blob_tail h i len s ;;
  let h := Z.lxor h (u32 len) in
  Done h.

(** The function run with one unit of fuel per 4-byte block of [len]. *)
Definition Ppx_fold_blob (h len : Z) (s : list byte) : outcome Z :=
  Ppx_fold_blob_fuel (Z.to_nat (len / 4)) h len s.

(** [caml_string_length]: the number of bytes of an OCaml string. *)
Definition caml_string_length (v_str : list byte) : Z :=
  Z.of_nat (length v_str).

(** ** [Ppx_fold_string] *)
Definition Ppx_fold_string (st : Z) (v_str : list byte) : outcome Z :=
  let h := u32 (Long_val st) in
  let len := caml_string_length v_str in
  let s := v_str in
  h <- Ppx_fold_blob h len s ;;
  Done (Val_long h).

End Blob.

(** ** The specification's description of the algorithms

    Definitions written from the prose of the specification (sections 4.2
    and 4.3), to be compared with the embedding of the code above. *)

Module Spec.

(** A rotation of a 32-bit word to the left: the [32 - n] low bits move up
    by [n] places and the [n] high bits come back at the bottom. *)
Definition rotate_left_32 (x n : Z) : Z :=
  (x mod 2 ^ (32 - n)) * 2 ^ n + x / 2 ^ (32 - n).

(** The mixing step applied to each word [d]. *)
Definition mix_step (h d : Z) : Z :=
  let d := (d * 0xcc9e2d51) mod 2 ^ 32 in
  let d := rotate_left_32 d 15 in
  let d := (d * 0x1b873593) mod 2 ^ 32 in
  let h := Z.lxor h d in
  let h := rotate_left_32 h 13 in
  (h * 5 + 0xe6546b64) mod 2 ^ 32.

(** A little-endian word of up to four bytes; missing high bytes are
    zero. *)
Fixpoint le_word (bytes : list byte) : Z :=
  match bytes with
  | [] => 0
  | b :: rest => byte_val b + 2 ^ 8 * le_word rest
  end.

(** While at least 4 bytes remain, consume one 4-byte word and mix it;
    the result is the state together with the trailing 0-3 bytes. *)
Fixpoint mix_blocks (h : Z) (s : list byte) {struct s} : Z * list byte :=
  match s with
  | b0 :: b1 :: b2 :: b3 :: rest =>
      mix_blocks (mix_step h (le_word [b0; b1; b2; b3])) rest
  | _ => (h, s)
  end.

(** Blocks, then one more step when the trailing length is 1, 2 or 3,
    then the exclusive-or of the low 32 bits of the length. *)
Definition fold_blob (h len : Z) (s : list byte) : Z :=
  let '(h, trailing) := mix_blocks h s in
  let h := if len mod 4 =? 0 then h else mix_step h (le_word trailing) in
  Z.lxor h (len mod 2 ^ 32).

(** The avalanche of section 4.2, every operation in unsigned 32-bit
    arithmetic. *)
Definition avalanche (h : Z) : Z :=
  let h := Z.lxor h (Z.shiftr h 16) mod 2 ^ 32 in
  let h := (h * 0x85ebca6b) mod 2 ^ 32 in
  let h := Z.lxor h (Z.shiftr h 13) mod 2 ^ 32 in
  let h := (h * 0xc2b2ae35) mod 2 ^ 32 in
  let h := Z.lxor h (Z.shiftr h 16) mod 2 ^ 32 in
  h.

(** The avalanche applied once, then the mask that keeps the low 30 bits. *)
Definition finalize (h : Z) : Z := Z.land (avalanche h) 0x3FFFFFFF.

End Spec.

(** ** The hash functions of the OCaml runtime ([caml/hash.h])

    [hash.c] calls five functions of the OCaml runtime, which are not part
    of the file. Two of them are fixed by the specification; the other three
    stay parameters of the stubs that call them. *)

(** Modelled from the spec: [caml_hash_mix_uint32], of the OCaml runtime, is
    missing. Section 4.1: the 32-bit pattern is mixed into the accumulator
    with the single-word block-mixer step. *)
Definition caml_hash_mix_uint32 (h d : Z) : Z := Spec.mix_step h d.

(** Modelled from the spec: [caml_hash_mix_string], of the OCaml runtime, is
    missing. Sections 4.1 and 4.3: the bytes of the string go through the
    block/byte mixer, which ends with the exclusive-or of the length. *)
Definition caml_hash_mix_string (h : Z) (s : list byte) : Z :=
  Spec.fold_blob h (Z.of_nat (length s)) s.

(** ** The stubs on fixed-width values

    A boxed argument ([Int32_val], [Nativeint_val], [Int64_val],
    [Double_val]) is given by its content; a [value] that is an immediate
    integer is given by its machine word. *)

Definition Ppx_fold_int32 (st i : Z) : Z :=
  Val_long (caml_hash_mix_uint32 (u32 (Long_val st)) (u32 i)).

Definition Ppx_hash_string (string : list byte) : Z :=
  let h := caml_hash_mix_string 0 string in
  FINAL_MIX_AND_RETURN h.

Section Runtime.

(** The type of the C [double]s. *)
Variable double : Type.

(** [uint32_t caml_hash_mix_intnat(uint32_t h, intnat d)],
    [uint32_t caml_hash_mix_int64(uint32_t h, int64_t d)] and
    [uint32_t caml_hash_mix_double(uint32_t h, double d)]. Their results
    are [uint32_t]: the stubs below read them through [u32]. *)
Variable caml_hash_mix_intnat : Z -> Z -> Z.
Variable caml_hash_mix_int64 : Z -> Z -> Z.
Variable caml_hash_mix_double : Z -> double -> Z.

Definition Ppx_fold_nativeint (st i : Z) : Z :=
  Val_long (u32 (caml_hash_mix_intnat (u32 (Long_val st)) i)).

Definition Ppx_fold_int64 (st i : Z) : Z :=
  Val_long (u32 (caml_hash_mix_int64 (u32 (Long_val st)) i)).

Definition Ppx_fold_int (st i : Z) : Z :=
  Val_long (u32 (caml_hash_mix_intnat (u32 (Long_val st)) (Long_val i))).

Definition Ppx_fold_float (st : Z) (i : double) : Z :=
  Val_long (u32 (caml_hash_mix_double (u32 (Long_val st)) i)).

Definition Ppx_hash_double (d : double) : Z :=
  let h := u32 (caml_hash_mix_double 0 d) in
  FINAL_MIX_AND_RETURN h.

End Runtime.

(** ** Auxiliary definitions of the statements *)

(** The byte of value [z mod 256]. *)
Definition byte_of (z : Z) : byte :=
  match Byte.of_N (Z.to_N (z mod 2 ^ 8)) with
  | Some b => b
  | None => x00
  end.

(** The four bytes of a 32-bit word, least significant first. *)
Definition le_bytes (w : Z) : list byte :=
  [byte_of w; byte_of (Z.shiftr w 8); byte_of (Z.shiftr w 16);
   byte_of (Z.shiftr w 24)].

(** Inverses of the steps of [MIX], used to show that they are one-to-one. *)
Definition ROTR32 (x n : Z) : Z := ROTL32 x (32 - n).

Definition unmix_word (h h' : Z) : Z :=
  let x := u32 ((h' - 0xe6546b64) * 0xcccccccd) in
  let x := ROTR32 x 13 in
  let d := Z.lxor x h in
  let d := u32 (d * 0x56ed309b) in
  let d := ROTR32 d 15 in
  u32 (d * 0xdee13bb1).

Definition unmix_state (d h' : Z) : Z :=
  let d := u32 (d * 0xcc9e2d51) in
  let d := ROTL32 d 15 in
  let d := u32 (d * 0x1b873593) in
  let x := u32 ((h' - 0xe6546b64) * 0xcccccccd) in
  let x := ROTR32 x 13 in
  Z.lxor x d.

(** An instance of the runtime's parameters, on which the statements about
    them are exercised: a 64-bit pattern mixed as two 32-bit words, the low
    word first (section 4.1). *)
Definition mix_two_words (h d : Z) : Z :=
  MIX (MIX h (u32 d)) (u32 (Z.shiftr d 32)).

(** Folding two strings in a row from the zero accumulator and finalizing. *)
Definition hash_two_strings (be : bool) (a b : list byte) : outcome Z :=
  st <- Ppx_fold_string be (Val_long 0) a ;;
  st <- Ppx_fold_string be st b ;;
  Done (Ppx_get_hash_value st).

(** The inverse of [FINAL_MIX] on 32-bit words: the three exclusive-ors with
    a shifted copy and the two odd multiplications, undone in reverse
    order. *)
Definition unfinal_mix (h : Z) : Z :=
  let h := Z.lxor h (Z.shiftr h 16) in
  let h := u32 (h * 0x7ed1b41d) in
  let h := Z.lxor (Z.lxor h (Z.shiftr h 13)) (Z.shiftr h 26) in
  let h := u32 (h * 0xa5cb9243) in
  let h := Z.lxor h (Z.shiftr h 16) in
  h.

(** A value that carries a 32-bit state without loss: the integer it holds
    is in [[0, 2^32)], and both ways of reading it back as a [uint32_t]
    ([Long_val] in the folds, [Int_val] in [Ppx_get_hash_value]) give that
    integer. *)
Definition carries_state (st : Z) : Prop :=
  is_immediate st /\
  is_u32 (Long_val st) /\
  u32 (Long_val st) = Long_val st /\
  u32 (Int_val st) = Long_val st.

(** The state of the block mixer just before the final exclusive-or of the
    length: after the blocks and the step on the trailing bytes. *)
Definition mixed_state (h len : Z) (s : list byte) : Z :=
  let '(h, trailing) := Spec.mix_blocks h s in
  if len mod 4 =? 0 then h else Spec.mix_step h (Spec.le_word trailing).

(** * Properties *)

(** ** Test vectors

    The embedding evaluated on the prefixes of ["abcdefgh"] (lengths 0, 1,
    2, 3, 4, 5, 7 and 8), from the zero state, for both settings of
    [ARCH_BIG_ENDIAN]. *)

Example fold_blob_len0 (be : bool) : Ppx_fold_blob be 0 0 [] = Done 0.
Proof. destruct be; vm_compute; reflexivity. Qed.

Example fold_blob_len1 (be : bool) : Ppx_fold_blob be 0 1 [x61] = Done 813284752.
Proof. destruct be; vm_compute; reflexivity. Qed.

Example fold_blob_len2 (be : bool) :
  Ppx_fold_blob be 0 2 [x61; x62] = Done 2691703958.
Proof. destruct be; vm_compute; reflexivity. Qed.

Example fold_blob_len3 (be : bool) :
  Ppx_fold_blob be 0 3 [x61; x62; x63] = Done 3370595297.
Proof. destruct be; vm_compute; reflexivity. Qed.

Example fold_blob_len4 (be : bool) :
  Ppx_fold_blob be 0 4 [x61; x62; x63; x64] = Done 2259092634.
Proof. destruct be; vm_compute; reflexivity. Qed.

Example fold_blob_len5 (be : bool) :
  Ppx_fold_blob be 0 5 [x61; x62; x63; x64; x65] = Done 2235224742.
Proof. destruct be; vm_compute; reflexivity. Qed.

Example fold_blob_len7 (be : bool) :
  Ppx_fold_blob be 0 7 [x61; x62; x63; x64; x65; x66; x67] = Done 3125285051.
Proof. destruct be; vm_compute; reflexivity. Qed.

Example fold_blob_len8 (be : bool) :
  Ppx_fold_blob be 0 8 [x61; x62; x63; x64; x65; x66; x67; x68] = Done 2798155687.
Proof. destruct be; vm_compute; reflexivity. Qed.

(** Bytes with their high bit set, from a state with all bits set. *)
Example fold_blob_high_bits (be : bool) :
  Ppx_fold_blob be 0xffffffff 3 [xff; x80; xfe] = Done 2992999529.
Proof. destruct be; vm_compute; reflexivity. Qed.

Example get_hash_value_deadbeef :
  Long_val (Ppx_get_hash_value (Val_long 0xdeadbeef)) = 233162409.
Proof. vm_compute. reflexivity. Qed.

Example hash_string_abc : Long_val (Ppx_hash_string [x61; x62; x63]) = 767105082.
Proof. vm_compute. reflexivity. Qed.

Example fold_int32_42 : Long_val (Ppx_fold_int32 (Val_long 0) 42) = 248614358.
Proof. vm_compute. reflexivity. Qed.

(** What the model answers when [len] is not the length of the buffer, and
    when the fuel does not cover the blocks. *)
Example fold_blob_past_the_end :
  Ppx_fold_blob false 0 8 [x61; x62; x63; x64; x65] = OutOfBounds.
Proof. vm_compute. reflexivity. Qed.

Example fold_blob_no_fuel :
  Ppx_fold_blob_fuel false 1 0 8 [x61; x62; x63; x64; x65; x66; x67; x68]
  = OutOfFuel.
Proof. vm_compute. reflexivity. Qed.

(** The index of the loop is an [mlsize_t]: at the top of the range
    [i + 4] wraps to a small number and the test of the loop holds again.
    The statements below are about buffers that leave room for [i + 4]. *)
Example loop_test_wraps :
  (usize ((2 ^ 64 - 4) + 4) <=? 2 ^ 64 - 1) = true.
Proof. vm_compute. reflexivity. Qed.

(** ** Conversions between machine integers *)

Ltac word_unfold :=
  unfold is_u32, is_intnat, is_long, Int_val, Val_int, Val_long, Long_val,
    u32, s32, snat, usize in *;
  rewrite ?Z.shiftl_mul_pow2, ?Z.shiftr_div_pow2 in * by lia;
  change (2 ^ 1) with 2 in *;
  change (2 ^ 31) with 2147483648 in *;
  change (2 ^ 32) with 4294967296 in *;
  change (2 ^ 62) with 4611686018427387904 in *;
  change (2 ^ 63) with 9223372036854775808 in *;
  change (2 ^ 64) with 18446744073709551616 in *.

Ltac word_lia := word_unfold; Z.div_mod_to_equations; lia.

(** Range facts about 32-bit words, for [auto with u32]. *)
Create HintDb u32.

Lemma u32_range (x : Z) : is_u32 (u32 x).
Proof. word_lia. Qed.

#[local] Hint Resolve u32_range : u32.

Lemma u32_small (x : Z) : is_u32 x -> u32 x = x.
Proof. intros H. word_lia. Qed.

Lemma u32_s32 (x : Z) : u32 (s32 x) = u32 x.
Proof. word_lia. Qed.

Lemma Val_long_spec (n : Z) : is_long n -> Val_long n = 2 * n + 1.
Proof. intros H. word_lia. Qed.

Lemma Long_val_Val_long (n : Z) : is_long n -> Long_val (Val_long n) = n.
Proof. intros H. word_lia. Qed.

Lemma is_u32_is_long (h : Z) : is_u32 h -> is_long h.
Proof. word_lia. Qed.

Lemma Val_long_immediate (n : Z) : is_long n -> is_immediate (Val_long n).
Proof.
  intros H. rewrite (Val_long_spec n H). split.
  - word_lia.
  - apply (Z.testbit_odd_0 n).
Qed.

(** The accumulator read back by a stub is the 32-bit state that the
    previous stub returned. *)
Lemma state_roundtrip (h : Z) : is_u32 h -> u32 (Long_val (Val_long h)) = h.
Proof. intros H. word_lia. Qed.

Lemma state_roundtrip_int (h : Z) : is_u32 h -> u32 (Int_val (Val_long h)) = h.
Proof. intros H. word_lia. Qed.

(** ** Rotations *)

Lemma land_shifted_low (a b n : Z) :
  0 <= n -> 0 <= b < 2 ^ n -> Z.land (a * 2 ^ n) b = 0.
Proof.
  intros Hn Hb.
  rewrite <- (Z.mod_small b (2 ^ n)) by lia.
  rewrite <- Z.shiftl_mul_pow2 by lia.
  apply Z.bits_inj'; intros i Hi.
  rewrite Z.land_spec, Z.testbit_mod_pow2, Z.bits_0 by lia.
  destruct (Z.ltb_spec i n) as [Hlt | Hge]; cbn.
  - rewrite Z.shiftl_spec_low by lia. reflexivity.
  - apply andb_false_r.
Qed.

Lemma lor_shifted_low (a b n : Z) :
  0 <= n -> 0 <= b < 2 ^ n -> Z.lor (a * 2 ^ n) b = a * 2 ^ n + b.
Proof.
  intros Hn Hb.
  rewrite <- (Z.add_lor_land (a * 2 ^ n) b).
  rewrite (land_shifted_low a b n Hn Hb). lia.
Qed.

(** The macro computes the rotation of the specification. *)
Lemma ROTL32_rotate (x n : Z) :
  is_u32 x -> 0 < n < 32 -> ROTL32 x n = Spec.rotate_left_32 x n.
Proof.
  intros Hx Hn. unfold ROTL32, Spec.rotate_left_32, u32, is_u32 in *.
  rewrite Z.shiftl_mul_pow2, Z.shiftr_div_pow2 by lia.
  assert (Hsplit : 2 ^ 32 = 2 ^ (32 - n) * 2 ^ n).
  { rewrite <- Z.pow_add_r by lia. f_equal. lia. }
  assert (Hpn : 0 < 2 ^ n) by (apply Z.pow_pos_nonneg; lia).
  assert (Hpm : 0 < 2 ^ (32 - n)) by (apply Z.pow_pos_nonneg; lia).
  rewrite Hsplit at 1.
  rewrite Z.mul_mod_distr_r by lia.
  apply lor_shifted_low; [lia |].
  split.
  - apply Z.div_pos; lia.
  - apply Z.div_lt_upper_bound; [lia |]. rewrite <- Hsplit. lia.
Qed.

Lemma rotate_left_32_range (x n : Z) :
  is_u32 x -> 0 < n < 32 -> is_u32 (Spec.rotate_left_32 x n).
Proof.
  intros Hx Hn. unfold Spec.rotate_left_32, is_u32 in *.
  assert (Hsplit : 2 ^ 32 = 2 ^ (32 - n) * 2 ^ n).
  { rewrite <- Z.pow_add_r by lia. f_equal. lia. }
  assert (Hpn : 0 < 2 ^ n) by (apply Z.pow_pos_nonneg; lia).
  assert (Hpm : 0 < 2 ^ (32 - n)) by (apply Z.pow_pos_nonneg; lia).
  pose proof (Z.mod_pos_bound x (2 ^ (32 - n)) Hpm) as Hr.
  assert (Hq : 0 <= x / 2 ^ (32 - n) < 2 ^ n).
  { split; [apply Z.div_pos; lia |].
    apply Z.div_lt_upper_bound; [lia |]. rewrite <- Hsplit. lia. }
  rewrite Hsplit. nia.
Qed.

Lemma ROTL32_range (x n : Z) :
  is_u32 x -> 0 < n < 32 -> is_u32 (ROTL32 x n).
Proof.
  intros Hx Hn. rewrite ROTL32_rotate by assumption.
  now apply rotate_left_32_range.
Qed.

(** Rotating by [n] and then by [32 - n] gives the word back. *)
Lemma rotate_left_32_inverse (x n : Z) :
  is_u32 x -> 0 < n < 32 ->
  Spec.rotate_left_32 (Spec.rotate_left_32 x n) (32 - n) = x.
Proof.
  intros Hx Hn. unfold Spec.rotate_left_32, is_u32 in *.
  replace (32 - (32 - n)) with n by lia.
  assert (Hsplit : 2 ^ 32 = 2 ^ (32 - n) * 2 ^ n).
  { rewrite <- Z.pow_add_r by lia. f_equal. lia. }
  assert (Hpn : 0 < 2 ^ n) by (apply Z.pow_pos_nonneg; lia).
  assert (Hpm : 0 < 2 ^ (32 - n)) by (apply Z.pow_pos_nonneg; lia).
  assert (Hq : 0 <= x / 2 ^ (32 - n) < 2 ^ n).
  { split; [apply Z.div_pos; lia |].
    apply Z.div_lt_upper_bound; [lia |]. rewrite <- Hsplit. lia. }
  pose proof (Z.mod_pos_bound x (2 ^ (32 - n)) Hpm) as Hr.
  set (lo := x mod 2 ^ (32 - n)) in *.
  set (hi := x / 2 ^ (32 - n)) in *.
  assert (Hx' : x = 2 ^ (32 - n) * hi + lo) by (apply Z.div_mod; lia).
  replace (lo * 2 ^ n + hi) with (hi + lo * 2 ^ n) by lia.
  rewrite Z.mod_add by lia.
  rewrite Z.div_add by lia.
  rewrite (Z.mod_small hi) by lia.
  rewrite (Z.div_small hi) by lia.
  lia.
Qed.

Lemma ROTL32_inverse (x n : Z) :
  is_u32 x -> 0 < n < 32 -> ROTL32 (ROTL32 x n) (32 - n) = x.
Proof.
  intros Hx Hn.
  rewrite (ROTL32_rotate x n) by assumption.
  rewrite ROTL32_rotate by (try apply rotate_left_32_range; auto; lia).
  now apply rotate_left_32_inverse.
Qed.

(** ** The mixing step *)

Lemma lxor_u32 (a b : Z) : is_u32 a -> is_u32 b -> is_u32 (Z.lxor a b).
Proof.
  intros Ha Hb. unfold is_u32 in *.
  assert (H : Z.lxor a b = Z.lxor a b mod 2 ^ 32).
  { rewrite <- (Z.mod_small a (2 ^ 32)) at 1 by lia.
    rewrite <- (Z.mod_small b (2 ^ 32)) at 1 by lia.
    apply Z.bits_inj'; intros i Hi.
    rewrite Z.lxor_spec, !Z.testbit_mod_pow2, Z.lxor_spec by lia.
    destruct (i <? 32); reflexivity. }
  rewrite H. apply Z.mod_pos_bound. lia.
Qed.

Lemma lxor_cancel_l (a b : Z) : Z.lxor (Z.lxor a b) a = b.
Proof.
  rewrite (Z.lxor_comm a b), Z.lxor_assoc, Z.lxor_nilpotent.
  apply Z.lxor_0_r.
Qed.

Lemma lxor_cancel_r (a b : Z) : Z.lxor (Z.lxor a b) b = a.
Proof. rewrite Z.lxor_assoc, Z.lxor_nilpotent. apply Z.lxor_0_r. Qed.

#[local] Hint Resolve lxor_u32 : u32.

(** The three multiplications of the step are by odd constants, which have
    inverses modulo [2 ^ 32]. *)
Lemma mul_c1_inverse (d : Z) :
  is_u32 d -> u32 (u32 (d * 0xcc9e2d51) * 0xdee13bb1) = d.
Proof. intros H. word_lia. Qed.

Lemma mul_c2_inverse (d : Z) :
  is_u32 d -> u32 (u32 (d * 0x1b873593) * 0x56ed309b) = d.
Proof. intros H. word_lia. Qed.

Lemma affine_inverse (h : Z) :
  is_u32 h -> u32 ((u32 (h * 5 + 0xe6546b64) - 0xe6546b64) * 0xcccccccd) = h.
Proof. intros H. word_lia. Qed.

Lemma mul_c1_inverse_r (d : Z) :
  is_u32 d -> u32 (u32 (d * 0xdee13bb1) * 0xcc9e2d51) = d.
Proof. intros H. word_lia. Qed.

Lemma mul_c2_inverse_r (d : Z) :
  is_u32 d -> u32 (u32 (d * 0x56ed309b) * 0x1b873593) = d.
Proof. intros H. word_lia. Qed.

Lemma affine_inverse_r (h : Z) :
  is_u32 h -> u32 (u32 ((h - 0xe6546b64) * 0xcccccccd) * 5 + 0xe6546b64) = h.
Proof. intros H. word_lia. Qed.

Lemma MIX_range (h d : Z) : is_u32 (MIX h d).
Proof. unfold MIX. apply u32_range. Qed.

(** The macro [MIX] is the mixing step of the specification. *)
Lemma MIX_mix_step (h d : Z) : is_u32 h -> MIX h d = Spec.mix_step h d.
Proof.
  intros Hh. unfold MIX, Spec.mix_step.
  fold (u32 (d * 0xcc9e2d51)).
  rewrite <- (ROTL32_rotate (u32 (d * 0xcc9e2d51)) 15)
    by (try apply u32_range; lia).
  fold (u32 (ROTL32 (u32 (d * 0xcc9e2d51)) 15 * 0x1b873593)).
  rewrite <- ROTL32_rotate
    by (try (apply lxor_u32; [assumption | apply u32_range]); lia).
  reflexivity.
Qed.

Lemma mix_step_range (h d : Z) : is_u32 (Spec.mix_step h d).
Proof. unfold Spec.mix_step. apply u32_range. Qed.

#[local] Hint Resolve MIX_range mix_step_range : u32.

(** [unmix_word h] undoes [MIX h] on the mixed word, and [unmix_state d]
    undoes [fun h => MIX h d] on the state. *)
Lemma unmix_word_MIX (h d : Z) :
  is_u32 h -> is_u32 d -> unmix_word h (MIX h d) = d.
Proof.
  intros Hh Hd. unfold unmix_word, MIX, ROTR32.
  set (d1 := u32 (d * 0xcc9e2d51)).
  set (d3 := u32 (ROTL32 d1 15 * 0x1b873593)).
  assert (Hd1 : is_u32 d1) by apply u32_range.
  assert (Hd3 : is_u32 d3) by apply u32_range.
  assert (Hx : is_u32 (Z.lxor h d3)) by now apply lxor_u32.
  rewrite affine_inverse by (apply ROTL32_range; [assumption | lia]).
  rewrite ROTL32_inverse by (assumption || lia).
  rewrite lxor_cancel_l.
  unfold d3. rewrite mul_c2_inverse by (apply ROTL32_range; [assumption | lia]).
  rewrite ROTL32_inverse by (assumption || lia).
  unfold d1. now apply mul_c1_inverse.
Qed.

Lemma unmix_state_MIX (h d : Z) : is_u32 h -> unmix_state d (MIX h d) = h.
Proof.
  intros Hh. unfold unmix_state, MIX, ROTR32.
  set (d3 := u32 (ROTL32 (u32 (d * 0xcc9e2d51)) 15 * 0x1b873593)).
  assert (Hd3 : is_u32 d3) by apply u32_range.
  assert (Hx : is_u32 (Z.lxor h d3)) by now apply lxor_u32.
  rewrite affine_inverse by (apply ROTL32_range; [assumption | lia]).
  rewrite ROTL32_inverse by (assumption || lia).
  apply lxor_cancel_r.
Qed.

Lemma unmix_word_range (h h' : Z) : is_u32 (unmix_word h h').
Proof. unfold unmix_word. apply u32_range. Qed.

Lemma ROTL32_inverse' (x n : Z) :
  is_u32 x -> 0 < n < 32 -> ROTL32 (ROTL32 x (32 - n)) n = x.
Proof.
  intros Hx Hn.
  replace n with (32 - (32 - n)) at 2 by lia.
  apply ROTL32_inverse; [assumption | lia].
Qed.

Lemma MIX_unmix_word (h h' : Z) :
  is_u32 h -> is_u32 h' -> MIX h (unmix_word h h') = h'.
Proof.
  intros Hh Hh'. unfold unmix_word, MIX, ROTR32.
  set (x := u32 ((h' - 0xe6546b64) * 0xcccccccd)).
  assert (Hx : is_u32 x) by apply u32_range.
  assert (Hr : is_u32 (ROTL32 x (32 - 13))) by (apply ROTL32_range; [assumption | lia]).
  assert (Hl : is_u32 (Z.lxor (ROTL32 x (32 - 13)) h)) by now apply lxor_u32.
  set (y := u32 (Z.lxor (ROTL32 x (32 - 13)) h * 0x56ed309b)).
  assert (Hy : is_u32 y) by apply u32_range.
  rewrite mul_c1_inverse_r by (apply ROTL32_range; [assumption | lia]).
  rewrite ROTL32_inverse' by (assumption || lia).
  unfold y. rewrite mul_c2_inverse_r by assumption.
  rewrite (Z.lxor_comm h), lxor_cancel_r.
  rewrite ROTL32_inverse' by (assumption || lia).
  unfold x. now apply affine_inverse_r.
Qed.

Lemma unmix_state_range (d h' : Z) : is_u32 (unmix_state d h').
Proof.
  unfold unmix_state, ROTR32. apply lxor_u32.
  - apply ROTL32_range; [apply u32_range | lia].
  - apply u32_range.
Qed.

Lemma MIX_unmix_state (d h' : Z) : is_u32 h' -> MIX (unmix_state d h') d = h'.
Proof.
  intros Hh'. unfold unmix_state, MIX, ROTR32.
  set (d3 := u32 (ROTL32 (u32 (d * 0xcc9e2d51)) 15 * 0x1b873593)).
  set (x := u32 ((h' - 0xe6546b64) * 0xcccccccd)).
  assert (Hx : is_u32 x) by apply u32_range.
  rewrite lxor_cancel_r.
  rewrite ROTL32_inverse' by (assumption || lia).
  unfold x. now apply affine_inverse_r.
Qed.

(** ** Reading the buffer *)

Lemma byte_val_range (b : byte) : 0 <= byte_val b < 2 ^ 8.
Proof.
  unfold byte_val. pose proof (Byte.to_N_bounded b) as H.
  change (2 ^ 8) with 256. lia.
Qed.

Lemma byte_val_byte_of (z : Z) : byte_val (byte_of z) = z mod 2 ^ 8.
Proof.
  unfold byte_val, byte_of. change (2 ^ 8) with 256.
  assert (Hr : 0 <= z mod 256 < 256) by (apply Z.mod_pos_bound; lia).
  destruct (Byte.of_N (Z.to_N (z mod 256))) as [b |] eqn:E.
  - apply Byte.to_of_N in E. rewrite E. lia.
  - apply Byte.of_N_None_iff in E. lia.
Qed.

Lemma usize_small (x : Z) : 0 <= x < 2 ^ 64 -> usize x = x.
Proof. intros H. unfold usize. now apply Z.mod_small. Qed.

(** The byte at offset [k] after a prefix [pre]. *)
Lemma byte_at_app (pre rest : list byte) (k : Z) (b : byte) :
  0 <= k ->
  nth_error rest (Z.to_nat k) = Some b ->
  byte_at (pre ++ rest) (Z.of_nat (length pre) + k) = Done (byte_val b).
Proof.
  intros Hk H. unfold byte_at.
  replace (Z.to_nat (Z.of_nat (length pre) + k))
    with (length pre + Z.to_nat k)%nat by lia.
  rewrite nth_error_app2 by lia.
  replace (length pre + Z.to_nat k - length pre)%nat with (Z.to_nat k) by lia.
  now rewrite H.
Qed.

Lemma byte_at_app_0 (pre rest : list byte) (b : byte) :
  byte_at (pre ++ b :: rest) (Z.of_nat (length pre)) = Done (byte_val b).
Proof.
  rewrite <- (Z.add_0_r (Z.of_nat (length pre))).
  now apply byte_at_app.
Qed.

Lemma byte_at_app_usize (pre rest : list byte) (k : Z) (b : byte) :
  0 <= k ->
  nth_error rest (Z.to_nat k) = Some b ->
  Z.of_nat (length pre) + k < 2 ^ 64 ->
  byte_at (pre ++ rest) (usize (Z.of_nat (length pre) + k)) = Done (byte_val b).
Proof.
  intros Hk H Hlt. rewrite usize_small by lia. now apply byte_at_app.
Qed.

(** The word assembled by the big-endian branch is the little-endian word
    that a little-endian host loads. *)
Lemma or_bytes_le_word (b0 b1 b2 b3 : Z) :
  0 <= b0 < 2 ^ 8 -> 0 <= b1 < 2 ^ 8 -> 0 <= b2 < 2 ^ 8 -> 0 <= b3 < 2 ^ 8 ->
  u32 (Z.lor (Z.lor (Z.lor b0 (Z.shiftl b1 8)) (Z.shiftl b2 16)) (Z.shiftl b3 24))
  = b0 + 2 ^ 8 * b1 + 2 ^ 16 * b2 + 2 ^ 24 * b3.
Proof.
  intros H0 H1 H2 H3.
  rewrite !Z.shiftl_mul_pow2 by lia.
  rewrite (Z.lor_comm b0), lor_shifted_low by lia.
  rewrite (Z.lor_comm _ (b2 * 2 ^ 16)), lor_shifted_low by lia.
  rewrite (Z.lor_comm _ (b3 * 2 ^ 24)), lor_shifted_low by lia.
  unfold u32. rewrite Z.mod_small; lia.
Qed.

Lemma load_block_app (be : bool) (pre rest : list byte) (b0 b1 b2 b3 : byte) :
  Z.of_nat (length pre) + 4 < 2 ^ 64 ->
  load_block be (pre ++ b0 :: b1 :: b2 :: b3 :: rest) (Z.of_nat (length pre))
  = Done (Spec.le_word [b0; b1; b2; b3]).
Proof.
  intros Hlt. unfold load_block.
  rewrite byte_at_app_0. cbn [bind].
  rewrite (byte_at_app_usize pre _ 1 b1) by (reflexivity || lia). cbn [bind].
  rewrite (byte_at_app_usize pre _ 2 b2) by (reflexivity || lia). cbn [bind].
  rewrite (byte_at_app_usize pre _ 3 b3) by (reflexivity || lia). cbn [bind].
  f_equal. cbn [Spec.le_word].
  pose proof (byte_val_range b0). pose proof (byte_val_range b1).
  pose proof (byte_val_range b2). pose proof (byte_val_range b3).
  destruct be.
  - rewrite or_bytes_le_word by assumption. lia.
  - lia.
Qed.

(** ** The loop over the blocks *)

Lemma blob_blocks_unfold (be : bool) (fuel : nat) (h i len : Z) (s : list byte) :
  blob_blocks be fuel h i len s =
  if usize (i + 4) <=? len then
    match fuel with
    | O => OutOfFuel
    | S fuel' =>
        w <- load_block be s i ;;
        blob_blocks be fuel' (MIX h w) (usize (i + 4)) len s
    end
  else Done (h, i).
Proof. destruct fuel; reflexivity. Qed.

(** The loop exits at once when fewer than 4 bytes remain. *)
Lemma blob_blocks_exit (be : bool) (fuel : nat) (h i len : Z) (s : list byte) :
  0 <= i -> i + 4 < 2 ^ 64 -> len < i + 4 ->
  blob_blocks be fuel h i len s = Done (h, i).
Proof.
  intros H0 Hlt Hlen. rewrite blob_blocks_unfold.
  rewrite usize_small by lia.
  destruct (Z.leb_spec (i + 4) len); [lia | reflexivity].
Qed.

(** Started after a prefix [pre], with enough fuel for the blocks of [rest],
    the loop computes the blocks of the specification and stops in front of
    its trailing bytes. *)
Lemma blob_blocks_refines (be : bool) (n : nat) :
  forall (rest pre : list byte) (h : Z) (fuel : nat),
    (length rest <= n)%nat ->
    is_u32 h ->
    Z.of_nat (length (pre ++ rest)) + 4 < 2 ^ 64 ->
    (length rest < 4 * S fuel)%nat ->
    exists (pre' trailing : list byte) (h' : Z),
      pre ++ rest = pre' ++ trailing /\
      (length trailing < 4)%nat /\
      is_u32 h' /\
      Spec.mix_blocks h rest = (h', trailing) /\
      (exists k : nat, length pre' = (length pre + 4 * k)%nat) /\
      blob_blocks be fuel h (Z.of_nat (length pre))
        (Z.of_nat (length (pre ++ rest))) (pre ++ rest)
      = Done (h', Z.of_nat (length pre')).
Proof.
  induction n as [| n IH]; intros rest pre h fuel Hn Hh Hlen Hfuel.
  - destruct rest as [| b rest]; [| cbn in Hn; lia].
    exists pre, [], h. cbn [length Spec.mix_blocks].
    split; [reflexivity | split; [lia | split; [assumption | split; [reflexivity |
      split; [exists 0%nat; lia |]]]]].
    apply blob_blocks_exit; rewrite ?length_app in *; cbn [length] in *; lia.
  - destruct rest as [| b0 [| b1 [| b2 [| b3 rest]]]].
    1-4: eexists pre, _, h; cbn [Spec.mix_blocks];
      (split; [reflexivity | split; [cbn [length]; lia | split;
         [assumption | split; [reflexivity | split; [exists 0%nat; lia |]]]]]);
      apply blob_blocks_exit; rewrite ?length_app in *; cbn [length] in *; lia.
    rewrite length_app in Hlen. cbn [length] in Hn, Hlen, Hfuel.
    destruct fuel as [| fuel]; [lia |].
    assert (Hassoc : pre ++ b0 :: b1 :: b2 :: b3 :: rest
                     = (pre ++ [b0; b1; b2; b3]) ++ rest).
    { now rewrite <- app_assoc. }
    destruct (IH rest (pre ++ [b0; b1; b2; b3])
                (MIX h (Spec.le_word [b0; b1; b2; b3])) fuel)
      as (pre' & trailing & h' & Hs & Ht & Hh' & Hspec & [k Hk] & Hrun).
    + lia.
    + apply MIX_range.
    + rewrite !length_app. cbn [length]. lia.
    + lia.
    + exists pre', trailing, h'.
      split; [| split; [assumption | split; [assumption | split; [| split]]]].
      * now rewrite Hassoc.
      * cbn [Spec.mix_blocks]. rewrite <- MIX_mix_step by assumption.
        exact Hspec.
      * exists (S k). rewrite Hk, length_app. cbn [length]. lia.
      * rewrite blob_blocks_unfold.
        rewrite usize_small by lia.
        rewrite length_app. cbn [length].
        destruct (Z.leb_spec (Z.of_nat (length pre) + 4)
                    (Z.of_nat (length pre + S (S (S (S (length rest)))))));
          [| lia].
        rewrite load_block_app by lia. cbn [bind].
        rewrite <- Hrun. rewrite <- Hassoc.
        rewrite !length_app. cbn [length].
        f_equal; lia.
Qed.

(** ** The trailing bytes *)

Lemma or_tail1 (a : Z) : 0 <= a < 2 ^ 8 -> Z.lor 0 (u32 a) = a + 2 ^ 8 * 0.
Proof.
  intros Ha. rewrite Z.lor_0_l. unfold u32. rewrite Z.mod_small; lia.
Qed.

Lemma or_tail2 (a b : Z) :
  0 <= a < 2 ^ 8 -> 0 <= b < 2 ^ 8 ->
  Z.lor (Z.lor 0 (u32 (Z.shiftl b 8))) (u32 a) = a + 2 ^ 8 * (b + 2 ^ 8 * 0).
Proof.
  intros Ha Hb. rewrite Z.lor_0_l, Z.shiftl_mul_pow2 by lia.
  unfold u32. rewrite !Z.mod_small by lia.
  rewrite lor_shifted_low by lia. lia.
Qed.

Lemma or_tail3 (a b c : Z) :
  0 <= a < 2 ^ 8 -> 0 <= b < 2 ^ 8 -> 0 <= c < 2 ^ 8 ->
  Z.lor (Z.lor (u32 (Z.shiftl c 16)) (u32 (Z.shiftl b 8))) (u32 a)
  = a + 2 ^ 8 * (b + 2 ^ 8 * (c + 2 ^ 8 * 0)).
Proof.
  intros Ha Hb Hc. rewrite !Z.shiftl_mul_pow2 by lia.
  unfold u32. rewrite !Z.mod_small by lia.
  rewrite (lor_shifted_low c (b * 2 ^ 8) 16) by lia.
  replace (c * 2 ^ 16 + b * 2 ^ 8) with ((c * 2 ^ 8 + b) * 2 ^ 8) by lia.
  rewrite lor_shifted_low by lia. lia.
Qed.

Lemma land_3_mod_4 (len : Z) : Z.land len 3 = len mod 4.
Proof. change 3 with (Z.ones 2). rewrite Z.land_ones by lia. reflexivity. Qed.

(** After the blocks, [switch (len & 3)] mixes the trailing bytes as one
    little-endian word when there are any, and nothing otherwise. *)
Lemma blob_tail_refines (pre' trailing : list byte) (h : Z) (k : nat) :
  is_u32 h ->
  (length trailing < 4)%nat ->
  length pre' = (4 * k)%nat ->
  Z.of_nat (length (pre' ++ trailing)) + 4 < 2 ^ 64 ->
  blob_tail h (Z.of_nat (length pre')) (Z.of_nat (length (pre' ++ trailing)))
    (pre' ++ trailing)
  = Done (if Z.of_nat (length (pre' ++ trailing)) mod 4 =? 0 then h
          else Spec.mix_step h (Spec.le_word trailing)).
Proof.
  intros Hh Ht Hk Hlen. unfold blob_tail. rewrite land_3_mod_4.
  rewrite length_app in *.
  assert (Hmod : Z.of_nat (length pre' + length trailing) mod 4
                 = Z.of_nat (length trailing)).
  { rewrite Hk. rewrite Nat2Z.inj_add, Nat2Z.inj_mul. change (Z.of_nat 4) with 4.
    rewrite Z.add_comm, Z.mul_comm, Z.mod_add by lia.
    apply Z.mod_small. lia. }
  rewrite Hmod.
  destruct trailing as [| a [| b [| c [| d rest]]]]; cbn [length] in *.
  - reflexivity.
  - cbn [Z.of_nat Pos.of_succ_nat Z.eqb]. unfold tail_case1.
    rewrite byte_at_app_0. cbn [bind]. f_equal.
    rewrite MIX_mix_step by assumption. cbn [Spec.le_word].
    now rewrite or_tail1 by apply byte_val_range.
  - cbn [Z.of_nat Pos.of_succ_nat Pos.succ Z.eqb]. unfold tail_case2, tail_case1.
    rewrite (byte_at_app_usize pre' _ 1 b) by (reflexivity || lia). cbn [bind].
    rewrite byte_at_app_0. cbn [bind]. f_equal.
    rewrite MIX_mix_step by assumption. cbn [Spec.le_word].
    now rewrite or_tail2 by apply byte_val_range.
  - cbn [Z.of_nat Pos.of_succ_nat Pos.succ Z.eqb].
    unfold tail_case3, tail_case2, tail_case1.
    rewrite (byte_at_app_usize pre' _ 2 c) by (reflexivity || lia). cbn [bind].
    rewrite (byte_at_app_usize pre' _ 1 b) by (reflexivity || lia). cbn [bind].
    rewrite byte_at_app_0. cbn [bind]. f_equal.
    rewrite MIX_mix_step by assumption. cbn [Spec.le_word].
    now rewrite or_tail3 by apply byte_val_range.
  - lia.
Qed.

(** ** The whole of [Ppx_fold_blob] *)

Lemma fold_blob_range (h len : Z) (s : list byte) :
  is_u32 h -> is_u32 (Spec.fold_blob h len s).
Proof.
  intros Hh. unfold Spec.fold_blob.
  destruct (Spec.mix_blocks h s) as [h' trailing] eqn:E.
  assert (Hh' : is_u32 h').
  { revert h Hh E. induction s as [s IH] using (induction_ltof1 _ (@length byte)).
    intros h Hh E.
    destruct s as [| b0 [| b1 [| b2 [| b3 rest]]]]; cbn [Spec.mix_blocks] in E;
      try (injection E as <- _; assumption).
    apply (IH rest) in E; [assumption | | apply mix_step_range].
    unfold ltof. cbn [length]. lia. }
  apply lxor_u32.
  - destruct (len mod 4 =? 0); [assumption | apply mix_step_range].
  - apply u32_range.
Qed.

(** One unit of fuel per block of [len] is enough. *)
Lemma enough_fuel (n fuel : nat) :
  (Z.to_nat (Z.of_nat n / 4) <= fuel)%nat -> (n < 4 * S fuel)%nat.
Proof.
  intros H.
  assert (Hq : 0 <= Z.of_nat n / 4) by (Z.div_mod_to_equations; lia).
  assert (Hn : Z.of_nat n < 4 * (Z.of_nat n / 4) + 4)
    by (Z.div_mod_to_equations; lia).
  set (q := Z.of_nat n / 4) in *. lia.
Qed.

#[local] Hint Resolve fold_blob_range : u32.

(** With fuel for every block of the buffer, the code computes what the
    specification describes. *)
Lemma Ppx_fold_blob_fuel_refines (be : bool) (fuel : nat) (h : Z) (s : list byte) :
  is_u32 h ->
  Z.of_nat (length s) + 4 < 2 ^ 64 ->
  (length s < 4 * S fuel)%nat ->
  Ppx_fold_blob_fuel be fuel h (Z.of_nat (length s)) s
  = Done (Spec.fold_blob h (Z.of_nat (length s)) s).
Proof.
  intros Hh Hlen Hfuel.
  destruct (blob_blocks_refines be (length s) s [] h fuel)
    as (pre' & trailing & h' & Hs & Ht & Hh' & Hspec & [k Hk] & Hrun);
    try assumption; try lia.
  cbn [app length] in Hs, Hk, Hrun. change (Z.of_nat 0) with 0 in Hrun.
  unfold Ppx_fold_blob_fuel, Spec.fold_blob.
  rewrite Hrun, Hspec. cbn [bind].
  rewrite Hs in *.
  rewrite (blob_tail_refines pre' trailing h' k) by (assumption || lia).
  reflexivity.
Qed.

Lemma Ppx_fold_blob_refines (be : bool) (h : Z) (s : list byte) :
  is_u32 h ->
  Z.of_nat (length s) + 4 < 2 ^ 64 ->
  Ppx_fold_blob be h (Z.of_nat (length s)) s
  = Done (Spec.fold_blob h (Z.of_nat (length s)) s).
Proof.
  intros Hh Hlen. unfold Ppx_fold_blob.
  apply Ppx_fold_blob_fuel_refines; try assumption.
  apply enough_fuel. lia.
Qed.

Lemma Ppx_fold_string_refines (be : bool) (st : Z) (s : list byte) :
  Z.of_nat (length s) + 4 < 2 ^ 64 ->
  Ppx_fold_string be st s
  = Done (Val_long (Spec.fold_blob (u32 (Long_val st)) (Z.of_nat (length s)) s)).
Proof.
  intros Hlen. unfold Ppx_fold_string, caml_string_length.
  rewrite Ppx_fold_blob_refines by (try apply u32_range; assumption).
  reflexivity.
Qed.

(** ** Finalization *)

Lemma shiftr_u32 (h n : Z) : is_u32 h -> 0 <= n -> is_u32 (Z.shiftr h n).
Proof.
  intros Hh Hn. unfold is_u32 in *. rewrite Z.shiftr_div_pow2 by lia.
  assert (Hp : 0 < 2 ^ n) by (apply Z.pow_pos_nonneg; lia).
  split.
  - apply Z.div_pos; lia.
  - apply Z.div_lt_upper_bound; nia.
Qed.

Lemma FINAL_MIX_finalize (h : Z) :
  is_u32 h -> Z.land (FINAL_MIX h) 0x3FFFFFFF = Spec.finalize h.
Proof.
  intros Hh. unfold FINAL_MIX, Spec.finalize, Spec.avalanche.
  assert (Hx : forall x n, is_u32 x -> 0 <= n ->
                           Z.lxor x (Z.shiftr x n) mod 2 ^ 32 = Z.lxor x (Z.shiftr x n)).
  { intros x n Hxr Hn. apply Z.mod_small.
    apply lxor_u32; [assumption | now apply shiftr_u32]. }
  rewrite (Hx h 16) by (assumption || lia).
  fold (u32 (Z.lxor h (Z.shiftr h 16) * 0x85ebca6b)).
  set (h2 := u32 (Z.lxor h (Z.shiftr h 16) * 0x85ebca6b)).
  rewrite (Hx h2 13) by (try apply u32_range; lia).
  fold (u32 (Z.lxor h2 (Z.shiftr h2 13) * 0xc2b2ae35)).
  set (h4 := u32 (Z.lxor h2 (Z.shiftr h2 13) * 0xc2b2ae35)).
  rewrite (Hx h4 16) by (try apply u32_range; lia).
  reflexivity.
Qed.

(** The mask keeps the low 30 bits. *)
Lemma finalize_low_bits (h : Z) : Spec.finalize h = Spec.avalanche h mod 2 ^ 30.
Proof.
  unfold Spec.finalize. change 0x3FFFFFFF with (Z.ones 30).
  apply Z.land_ones. lia.
Qed.

Lemma land_mask_range (x : Z) : 0 <= Z.land x 0x3FFFFFFF < 2 ^ 30.
Proof.
  change 0x3FFFFFFF with (Z.ones 30). rewrite Z.land_ones by lia.
  apply Z.mod_pos_bound. lia.
Qed.

Lemma FINAL_MIX_AND_RETURN_eq (h : Z) :
  FINAL_MIX_AND_RETURN h = Val_int (Z.land (FINAL_MIX h) 0x3FFFFFFF).
Proof. reflexivity. Qed.

Lemma Ppx_get_hash_value_decode (st : Z) :
  Long_val (Ppx_get_hash_value st)
  = Z.land (FINAL_MIX (u32 (Int_val st))) 0x3FFFFFFF.
Proof.
  unfold Ppx_get_hash_value, Val_int.
  apply Long_val_Val_long.
  pose proof (land_mask_range (FINAL_MIX (u32 (Int_val st)))) as H.
  unfold is_long. change (2 ^ 30) with 1073741824 in H.
  change (2 ^ 62) with 4611686018427387904. lia.
Qed.

(** ** Single blocks *)

Lemma byte_val_inj (a b : byte) : byte_val a = byte_val b -> a = b.
Proof.
  unfold byte_val. intros H. apply N2Z.inj in H.
  pose proof (Byte.of_to_N a) as Ha. rewrite H, Byte.of_to_N in Ha.
  now injection Ha.
Qed.

Lemma le_word_4_inj (a0 a1 a2 a3 b0 b1 b2 b3 : byte) :
  Spec.le_word [a0; a1; a2; a3] = Spec.le_word [b0; b1; b2; b3] ->
  [a0; a1; a2; a3] = [b0; b1; b2; b3].
Proof.
  cbn [Spec.le_word]. intros H.
  pose proof (byte_val_range a0). pose proof (byte_val_range a1).
  pose proof (byte_val_range a2). pose proof (byte_val_range a3).
  pose proof (byte_val_range b0). pose proof (byte_val_range b1).
  pose proof (byte_val_range b2). pose proof (byte_val_range b3).
  change (2 ^ 8) with 256 in *.
  assert (byte_val a0 = byte_val b0) by lia.
  assert (byte_val a1 = byte_val b1) by lia.
  assert (byte_val a2 = byte_val b2) by lia.
  assert (byte_val a3 = byte_val b3) by lia.
  repeat f_equal; now apply byte_val_inj.
Qed.

Lemma le_word_4_range (b0 b1 b2 b3 : byte) :
  is_u32 (Spec.le_word [b0; b1; b2; b3]).
Proof.
  cbn [Spec.le_word]. unfold is_u32.
  pose proof (byte_val_range b0). pose proof (byte_val_range b1).
  pose proof (byte_val_range b2). pose proof (byte_val_range b3).
  change (2 ^ 8) with 256 in *. change (2 ^ 32) with 4294967296. lia.
Qed.

Lemma le_word_le_bytes (w : Z) : is_u32 w -> Spec.le_word (le_bytes w) = w.
Proof.
  intros Hw. unfold le_bytes. cbn [Spec.le_word].
  rewrite !byte_val_byte_of. rewrite !Z.shiftr_div_pow2 by lia.
  unfold is_u32 in Hw.
  change (2 ^ 8) with 256. change (2 ^ 16) with 65536.
  change (2 ^ 24) with 16777216. change (2 ^ 32) with 4294967296 in Hw.
  Z.div_mod_to_equations. lia.
Qed.

(** One turn of the loop on a buffer of exactly four bytes. *)
Lemma blob_blocks_single (be : bool) (h : Z) (b0 b1 b2 b3 : byte) :
  blob_blocks be 1 h 0 4 [b0; b1; b2; b3]
  = Done (MIX h (Spec.le_word [b0; b1; b2; b3]), 4).
Proof.
  rewrite blob_blocks_unfold.
  change (usize (0 + 4) <=? 4) with true. cbv iota.
  assert (E : load_block be [b0; b1; b2; b3] 0
              = Done (Spec.le_word [b0; b1; b2; b3])).
  { apply (load_block_app be [] [] b0 b1 b2 b3). cbn [length]. lia. }
  rewrite E. cbn [bind]. apply blob_blocks_exit; cbn; lia.
Qed.

Lemma Ppx_fold_blob_single (be : bool) (h : Z) (b0 b1 b2 b3 : byte) :
  is_u32 h ->
  Ppx_fold_blob be h 4 [b0; b1; b2; b3]
  = Done (Z.lxor (MIX h (Spec.le_word [b0; b1; b2; b3])) 4).
Proof.
  intros Hh.
  change 4 with (Z.of_nat (length [b0; b1; b2; b3])) at 1.
  rewrite (Ppx_fold_blob_refines be h [b0; b1; b2; b3] Hh) by (cbn [length]; lia).
  unfold Spec.fold_blob. cbn [Spec.mix_blocks].
  now rewrite MIX_mix_step.
Qed.

(** The accumulator returned by [Ppx_fold_int32], read back from its
    tagged representation. *)
Lemma Ppx_fold_int32_decode (h v : Z) :
  is_u32 h -> Long_val (Ppx_fold_int32 (Val_long h) v) = MIX h (u32 v).
Proof.
  intros Hh. unfold Ppx_fold_int32, caml_hash_mix_uint32.
  rewrite state_roundtrip by assumption.
  rewrite Long_val_Val_long by (apply is_u32_is_long, mix_step_range).
  symmetry. now apply MIX_mix_step.
Qed.

Lemma u32_inj_int32 (v1 v2 : Z) :
  - 2 ^ 31 <= v1 < 2 ^ 31 -> - 2 ^ 31 <= v2 < 2 ^ 31 -> u32 v1 = u32 v2 -> v1 = v2.
Proof. intros H1 H2 H. word_lia. Qed.

(** Two 32-bit integers folded from the same accumulator give the same
    accumulator only when they are equal. *)
Lemma Ppx_fold_int32_inj (h v1 v2 : Z) :
  is_u32 h ->
  - 2 ^ 31 <= v1 < 2 ^ 31 -> - 2 ^ 31 <= v2 < 2 ^ 31 ->
  Ppx_fold_int32 (Val_long h) v1 = Ppx_fold_int32 (Val_long h) v2 ->
  v1 = v2.
Proof.
  intros Hh Hv1 Hv2 Heq.
  apply u32_inj_int32; try assumption.
  rewrite <- (unmix_word_MIX h (u32 v1)), <- (unmix_word_MIX h (u32 v2))
    by (assumption || apply u32_range).
  rewrite <- !Ppx_fold_int32_decode by assumption.
  now rewrite Heq.
Qed.

(** * The stated properties *)

(** C1. For every 32-bit state [h] and every buffer [s] of length [len]
    (one that the address space of the platform can hold), [Ppx_fold_blob]
    returns what section 4.3 describes: the mixing step on each 4-byte
    little-endian word while 4 bytes remain, one more step on the partial
    little-endian word of the trailing bytes exactly when [len mod 4] is 1,
    2 or 3, and last the exclusive-or of the low 32 bits of [len]. It does
    so whether or not the file is compiled for a big-endian host. *)
Theorem Ppx_fold_blob_spec (be : bool) (h len : Z) (s : list byte) :
  is_u32 h ->
  len = Z.of_nat (length s) ->
  len + 4 < 2 ^ 64 ->
  Ppx_fold_blob be h len s = Done (Spec.fold_blob h len s).
Proof.
  intros Hh -> Hlen. now apply Ppx_fold_blob_refines.
Qed.

Lemma Ppx_fold_blob_spec_witness :
  (is_u32 7 /\ 5 = Z.of_nat (length [x61; x62; x63; x64; x65]) /\ 5 + 4 < 2 ^ 64) /\
  Ppx_fold_blob true 7 5 [x61; x62; x63; x64; x65]
  = Done (Spec.fold_blob 7 5 [x61; x62; x63; x64; x65]).
Proof.
  assert (H1 : is_u32 7) by (unfold is_u32; split; [discriminate | reflexivity]).
  assert (H2 : 5 = Z.of_nat (length [x61; x62; x63; x64; x65])) by reflexivity.
  assert (H3 : 5 + 4 < 2 ^ 64) by reflexivity.
  split; [auto |].
  exact (Ppx_fold_blob_spec true 7 5 [x61; x62; x63; x64; x65] H1 H2 H3).
Defined.

(** C2. For every accumulator [h], [Ppx_get_hash_value] returns the OCaml
    integer [Spec.finalize h]: the avalanche sequence of section 4.2 applied
    once in wrapping 32-bit arithmetic, masked with [0x3FFFFFFF]. *)
Theorem Ppx_get_hash_value_spec (h : Z) :
  is_u32 h ->
  Ppx_get_hash_value (Val_long h) = Val_int (Spec.finalize h) /\
  Long_val (Ppx_get_hash_value (Val_long h)) = Spec.finalize h /\
  Spec.finalize h = Spec.avalanche h mod 2 ^ 30.
Proof.
  intros Hh. split; [| split].
  - unfold Ppx_get_hash_value.
    rewrite state_roundtrip_int by assumption.
    now rewrite FINAL_MIX_finalize.
  - rewrite Ppx_get_hash_value_decode.
    rewrite state_roundtrip_int by assumption.
    now apply FINAL_MIX_finalize.
  - apply finalize_low_bits.
Qed.

Lemma Ppx_get_hash_value_spec_witness :
  is_u32 0xdeadbeef /\
  Ppx_get_hash_value (Val_long 0xdeadbeef) = Val_int (Spec.finalize 0xdeadbeef) /\
  Long_val (Ppx_get_hash_value (Val_long 0xdeadbeef)) = Spec.finalize 0xdeadbeef /\
  Spec.finalize 0xdeadbeef = Spec.avalanche 0xdeadbeef mod 2 ^ 30.
Proof.
  assert (H : is_u32 0xdeadbeef) by (unfold is_u32; split; [discriminate | reflexivity]).
  split; [exact H |].
  exact (Ppx_get_hash_value_spec 0xdeadbeef H).
Defined.

(** C3. Hashing a string in one call ([Ppx_hash_string]) gives the output of
    folding it into the zero accumulator ([Ppx_fold_string]) and finalizing
    ([Ppx_get_hash_value]), for every string, the empty one included; and
    hashing a double in one call ([Ppx_hash_double]) gives the output of
    finalizing [Ppx_fold_float] from the zero accumulator, whatever the
    runtime's [caml_hash_mix_double] computes. *)
Theorem hash_direct_agrees (be : bool) (double : Type)
  (caml_hash_mix_double : Z -> double -> Z) :
  (forall b : list byte,
      Z.of_nat (length b) + 4 < 2 ^ 64 ->
      (st <- Ppx_fold_string be (Val_long 0) b ;; Done (Ppx_get_hash_value st))
      = Done (Ppx_hash_string b)) /\
  (forall d : double,
      Ppx_get_hash_value (Ppx_fold_float double caml_hash_mix_double (Val_long 0) d)
      = Ppx_hash_double double caml_hash_mix_double d).
Proof.
  split.
  - intros b Hlen.
    rewrite Ppx_fold_string_refines by assumption. cbn [bind]. f_equal.
    unfold Ppx_hash_string, caml_hash_mix_string.
    rewrite FINAL_MIX_AND_RETURN_eq. unfold Ppx_get_hash_value.
    assert (H0 : is_u32 0) by (unfold is_u32; split; [reflexivity | reflexivity]).
    rewrite (state_roundtrip 0 H0).
    now rewrite state_roundtrip_int by (now apply fold_blob_range).
  - intros d. unfold Ppx_fold_float, Ppx_hash_double.
    rewrite FINAL_MIX_AND_RETURN_eq. unfold Ppx_get_hash_value.
    assert (H0 : is_u32 0) by (unfold is_u32; split; [reflexivity | reflexivity]).
    rewrite (state_roundtrip 0 H0).
    now rewrite state_roundtrip_int by apply u32_range.
Qed.

Lemma hash_direct_agrees_witness :
  Z.of_nat (length (@nil byte)) + 4 < 2 ^ 64 /\
  (st <- Ppx_fold_string false (Val_long 0) [] ;; Done (Ppx_get_hash_value st))
  = Done (Ppx_hash_string []) /\
  Ppx_get_hash_value (Ppx_fold_float Z mix_two_words (Val_long 0) 0x3ff0000000000000)
  = Ppx_hash_double Z mix_two_words 0x3ff0000000000000.
Proof.
  assert (H : Z.of_nat (length (@nil byte)) + 4 < 2 ^ 64) by reflexivity.
  split; [exact H |]. split.
  - exact (proj1 (hash_direct_agrees false Z mix_two_words) [] H).
  - exact (proj2 (hash_direct_agrees false Z mix_two_words) 0x3ff0000000000000).
Defined.

(** C4. For every accumulator in [[0, 2^32 - 1]], the integer returned by
    [Ppx_get_hash_value] lies in [[0, 2^30 - 1]]: bits 30 and 31 of the
    output word are zero. *)
Theorem Ppx_get_hash_value_bounded (h : Z) :
  0 <= h <= 2 ^ 32 - 1 ->
  0 <= Long_val (Ppx_get_hash_value (Val_long h)) <= 2 ^ 30 - 1 /\
  Z.testbit (Long_val (Ppx_get_hash_value (Val_long h))) 30 = false /\
  Z.testbit (Long_val (Ppx_get_hash_value (Val_long h))) 31 = false.
Proof.
  intros Hh. rewrite Ppx_get_hash_value_decode.
  set (x := FINAL_MIX (u32 (Int_val (Val_long h)))).
  pose proof (land_mask_range x) as Hr.
  split; [lia |].
  split; rewrite Z.land_spec; apply andb_false_r.
Qed.

Lemma Ppx_get_hash_value_bounded_witness :
  0 <= 0xffffffff <= 2 ^ 32 - 1 /\
  0 <= Long_val (Ppx_get_hash_value (Val_long 0xffffffff)) <= 2 ^ 30 - 1 /\
  Z.testbit (Long_val (Ppx_get_hash_value (Val_long 0xffffffff))) 30 = false /\
  Z.testbit (Long_val (Ppx_get_hash_value (Val_long 0xffffffff))) 31 = false.
Proof.
  assert (H : 0 <= 0xffffffff <= 2 ^ 32 - 1) by (split; discriminate).
  split; [exact H |].
  exact (Ppx_get_hash_value_bounded 0xffffffff H).
Defined.

(** C5. For every accumulator [h] and every 32-bit integer [v],
    [Ppx_fold_int32] returns the accumulator obtained by one application of
    the mixing step [MIX] to the bit pattern of [v]; it is the state that
    the loop of the block mixer reaches after the single 4-byte block made
    of the little-endian bytes of that pattern (the block mixer then adds
    the exclusive-or of the length 4, which [Ppx_fold_int32] does not). *)
Theorem Ppx_fold_int32_single_block (be : bool) (h v : Z) :
  is_u32 h ->
  - 2 ^ 31 <= v < 2 ^ 31 ->
  Long_val (Ppx_fold_int32 (Val_long h) v) = MIX h (u32 v) /\
  blob_blocks be 1 h 0 4 (le_bytes (u32 v))
  = Done (Long_val (Ppx_fold_int32 (Val_long h) v), 4) /\
  Ppx_fold_blob be h 4 (le_bytes (u32 v))
  = Done (Z.lxor (Long_val (Ppx_fold_int32 (Val_long h) v)) 4).
Proof.
  intros Hh Hv.
  rewrite Ppx_fold_int32_decode by assumption. split; [reflexivity |].
  rewrite <- (le_word_le_bytes (u32 v)) at 2 4 by apply u32_range.
  unfold le_bytes. split.
  - apply blob_blocks_single.
  - now apply Ppx_fold_blob_single.
Qed.

Lemma Ppx_fold_int32_single_block_witness :
  (is_u32 7 /\ - 2 ^ 31 <= -5 < 2 ^ 31) /\
  Long_val (Ppx_fold_int32 (Val_long 7) (-5)) = MIX 7 (u32 (-5)) /\
  blob_blocks false 1 7 0 4 (le_bytes (u32 (-5)))
  = Done (Long_val (Ppx_fold_int32 (Val_long 7) (-5)), 4) /\
  Ppx_fold_blob false 7 4 (le_bytes (u32 (-5)))
  = Done (Z.lxor (Long_val (Ppx_fold_int32 (Val_long 7) (-5))) 4).
Proof.
  assert (H1 : is_u32 7) by (unfold is_u32; split; [discriminate | reflexivity]).
  assert (H2 : - 2 ^ 31 <= -5 < 2 ^ 31) by (split; [discriminate | reflexivity]).
  split; [auto |].
  exact (Ppx_fold_int32_single_block false 7 (-5) H1 H2).
Defined.

(** C6. With [len = 0], [Ppx_fold_blob] returns [h] unchanged, whatever the
    buffer and the fuel: the loop over the blocks exits at index 0 without a
    step, the [switch] takes its [default] branch, and the final
    exclusive-or is with 0. *)
Theorem Ppx_fold_blob_empty (be : bool) (fuel : nat) (h : Z) (s : list byte) :
  blob_blocks be fuel h 0 0 s = Done (h, 0) /\
  blob_tail h 0 0 s = Done h /\
  Z.lxor h (u32 0) = h /\
  Ppx_fold_blob_fuel be fuel h 0 s = Done h /\
  Ppx_fold_blob be h 0 s = Done h.
Proof.
  assert (Hloop : forall f, blob_blocks be f h 0 0 s = Done (h, 0)).
  { intros f. apply blob_blocks_exit; cbn; lia. }
  assert (Hxor : Z.lxor h (u32 0) = h) by apply Z.lxor_0_r.
  assert (Hrun : forall f, Ppx_fold_blob_fuel be f h 0 s = Done h).
  { intros f. unfold Ppx_fold_blob_fuel. rewrite Hloop. cbn [bind].
    unfold blob_tail. cbn [Z.land bind]. now rewrite Hxor. }
  repeat split; auto. apply Hrun.
Qed.

(** C7. For every accumulator [st] and every integer [v] of the default
    width, [Ppx_fold_int] on the value of [v] returns the accumulator that
    [Ppx_fold_nativeint] returns on the native integer [v], whatever the
    runtime's [caml_hash_mix_intnat] computes. *)
Theorem Ppx_fold_int_as_nativeint (caml_hash_mix_intnat : Z -> Z -> Z) (st v : Z) :
  is_long v ->
  Ppx_fold_int caml_hash_mix_intnat st (Val_long v)
  = Ppx_fold_nativeint caml_hash_mix_intnat st v.
Proof.
  intros Hv. unfold Ppx_fold_int, Ppx_fold_nativeint.
  now rewrite Long_val_Val_long.
Qed.

Lemma Ppx_fold_int_as_nativeint_witness :
  is_long (-42) /\
  Ppx_fold_int mix_two_words (Val_long 3) (Val_long (-42))
  = Ppx_fold_nativeint mix_two_words (Val_long 3) (-42).
Proof.
  assert (H : is_long (-42)) by (unfold is_long; split; [discriminate | reflexivity]).
  split; [exact H |].
  exact (Ppx_fold_int_as_nativeint mix_two_words (Val_long 3) (-42) H).
Defined.

(** C8. Folding is order-sensitive: there are two different strings whose
    folds from the zero accumulator, in one order and in the other, finalize
    to different outputs. *)
Theorem fold_order_sensitive (be : bool) :
  exists (a b : list byte) (x y : Z),
    a <> b /\
    hash_two_strings be a b = Done x /\
    hash_two_strings be b a = Done y /\
    x <> y.
Proof.
  exists [x61], [x62], (Val_int 243038927), (Val_int 196697155).
  split; [discriminate |].
  split; [destruct be; vm_compute; reflexivity |].
  split; [destruct be; vm_compute; reflexivity |].
  vm_compute. discriminate.
Qed.

(** ** Totality *)

Lemma Val_long_u32_immediate (x : Z) : is_u32 x -> is_immediate (Val_long x).
Proof. intros H. now apply Val_long_immediate, is_u32_is_long. Qed.

#[local] Hint Resolve Val_long_u32_immediate : u32.

Lemma FINAL_MIX_AND_RETURN_immediate (h : Z) :
  is_immediate (FINAL_MIX_AND_RETURN h).
Proof.
  rewrite FINAL_MIX_AND_RETURN_eq. unfold Val_int.
  apply Val_long_immediate.
  pose proof (land_mask_range (FINAL_MIX h)) as H.
  unfold is_long. change (2 ^ 30) with 1073741824 in H.
  change (2 ^ 62) with 4611686018427387904. lia.
Qed.

(** C9. Every operation returns a result on every input. [Ppx_fold_blob],
    on a buffer of any length that the address space can hold (zero
    included) and of any content, leaves its loop and returns a 32-bit
    state, the same for every amount of fuel that covers the blocks of the
    buffer: it reads no byte outside of the buffer and does not run forever;
    so does [Ppx_fold_string]. The folds of fixed-width values, the
    finalization and the one-call hashes are functions without loop or
    failure, and return well-formed immediate values. *)
Theorem operations_total :
  (forall (be : bool) (h : Z) (s : list byte),
      is_u32 h ->
      Z.of_nat (length s) + 4 < 2 ^ 64 ->
      exists r : Z,
        is_u32 r /\
        Ppx_fold_blob be h (Z.of_nat (length s)) s = Done r /\
        forall fuel : nat,
          (Z.to_nat (Z.of_nat (length s) / 4) <= fuel)%nat ->
          Ppx_fold_blob_fuel be fuel h (Z.of_nat (length s)) s = Done r) /\
  (forall (be : bool) (st : Z) (s : list byte),
      Z.of_nat (length s) + 4 < 2 ^ 64 ->
      exists st' : Z, is_immediate st' /\ Ppx_fold_string be st s = Done st') /\
  (forall st i : Z, is_immediate (Ppx_fold_int32 st i)) /\
  (forall (mix : Z -> Z -> Z) (st i : Z), is_immediate (Ppx_fold_nativeint mix st i)) /\
  (forall (mix : Z -> Z -> Z) (st i : Z), is_immediate (Ppx_fold_int64 mix st i)) /\
  (forall (mix : Z -> Z -> Z) (st i : Z), is_immediate (Ppx_fold_int mix st i)) /\
  (forall (double : Type) (mix : Z -> double -> Z) (st : Z) (d : double),
      is_immediate (Ppx_fold_float double mix st d)) /\
  (forall st : Z, is_immediate (Ppx_get_hash_value st)) /\
  (forall s : list byte, is_immediate (Ppx_hash_string s)) /\
  (forall (double : Type) (mix : Z -> double -> Z) (d : double),
      is_immediate (Ppx_hash_double double mix d)).
Proof.
  repeat match goal with |- _ /\ _ => split end.
  - intros be h s Hh Hlen.
    exists (Spec.fold_blob h (Z.of_nat (length s)) s).
    split; [auto with u32 |].
    split; [now apply Ppx_fold_blob_refines |].
    intros fuel Hfuel.
    apply Ppx_fold_blob_fuel_refines; try assumption.
    now apply enough_fuel.
  - intros be st s Hlen.
    rewrite Ppx_fold_string_refines by assumption.
    eexists. split; [| reflexivity]. auto with u32.
  - intros st i. unfold Ppx_fold_int32, caml_hash_mix_uint32. auto with u32.
  - intros mix st i. unfold Ppx_fold_nativeint. auto with u32.
  - intros mix st i. unfold Ppx_fold_int64. auto with u32.
  - intros mix st i. unfold Ppx_fold_int. auto with u32.
  - intros double mix st d. unfold Ppx_fold_float. auto with u32.
  - intros st. unfold Ppx_get_hash_value. rewrite <- FINAL_MIX_AND_RETURN_eq.
    apply FINAL_MIX_AND_RETURN_immediate.
  - intros s. apply FINAL_MIX_AND_RETURN_immediate.
  - intros double mix d. apply FINAL_MIX_AND_RETURN_immediate.
Qed.

Lemma operations_total_witness :
  (is_u32 7 /\ Z.of_nat (length [x61; x62; x63; x64; x65]) + 4 < 2 ^ 64) /\
  exists r : Z,
    is_u32 r /\
    Ppx_fold_blob false 7 (Z.of_nat (length [x61; x62; x63; x64; x65]))
      [x61; x62; x63; x64; x65] = Done r /\
    forall fuel : nat,
      (Z.to_nat (Z.of_nat (length [x61; x62; x63; x64; x65]) / 4) <= fuel)%nat ->
      Ppx_fold_blob_fuel false fuel 7 (Z.of_nat (length [x61; x62; x63; x64; x65]))
        [x61; x62; x63; x64; x65] = Done r.
Proof.
  assert (H1 : is_u32 7) by (unfold is_u32; split; [discriminate | reflexivity]).
  assert (H2 : Z.of_nat (length [x61; x62; x63; x64; x65]) + 4 < 2 ^ 64)
    by reflexivity.
  split; [auto |].
  exact (proj1 operations_total false 7 [x61; x62; x63; x64; x65] H1 H2).
Defined.

(** ** One-to-one *)

(** C10. For a fixed accumulator [h] the mixing step is one-to-one in the
    mixed 32-bit word, and for a fixed word [d] it is one-to-one in the
    accumulator; in both arguments it is moreover onto the 32-bit words, the
    inverses being [unmix_word] and [unmix_state]. Hence two different
    4-byte values folded by the block mixer from the same state give
    different states. *)
Theorem MIX_injective :
  (forall h d1 d2 : Z,
      is_u32 h -> is_u32 d1 -> is_u32 d2 ->
      d1 <> d2 -> MIX h d1 <> MIX h d2) /\
  (forall d h1 h2 : Z,
      is_u32 d -> is_u32 h1 -> is_u32 h2 ->
      h1 <> h2 -> MIX h1 d <> MIX h2 d) /\
  (forall h h' : Z,
      is_u32 h -> is_u32 h' ->
      is_u32 (unmix_word h h') /\ MIX h (unmix_word h h') = h') /\
  (forall d h' : Z,
      is_u32 d -> is_u32 h' ->
      is_u32 (unmix_state d h') /\ MIX (unmix_state d h') d = h') /\
  (forall (be : bool) (h : Z) (a0 a1 a2 a3 b0 b1 b2 b3 : byte),
      is_u32 h ->
      [a0; a1; a2; a3] <> [b0; b1; b2; b3] ->
      Ppx_fold_blob be h 4 [a0; a1; a2; a3] <> Ppx_fold_blob be h 4 [b0; b1; b2; b3]).
Proof.
  repeat match goal with |- _ /\ _ => split end.
  - intros h d1 d2 Hh Hd1 Hd2 Hne Heq. apply Hne.
    rewrite <- (unmix_word_MIX h d1), <- (unmix_word_MIX h d2) by assumption.
    now rewrite Heq.
  - intros d h1 h2 _ Hh1 Hh2 Hne Heq. apply Hne.
    rewrite <- (unmix_state_MIX h1 d), <- (unmix_state_MIX h2 d) by assumption.
    now rewrite Heq.
  - intros h h' Hh Hh'. split; [apply unmix_word_range | now apply MIX_unmix_word].
  - intros d h' _ Hh'. split; [apply unmix_state_range | now apply MIX_unmix_state].
  - intros be h a0 a1 a2 a3 b0 b1 b2 b3 Hh Hne Heq. apply Hne.
    rewrite !Ppx_fold_blob_single in Heq by assumption.
    assert (Hx : Z.lxor (MIX h (Spec.le_word [a0; a1; a2; a3])) 4
                 = Z.lxor (MIX h (Spec.le_word [b0; b1; b2; b3])) 4)
      by (injection Heq as E; exact E).
    apply le_word_4_inj.
    rewrite <- (unmix_word_MIX h (Spec.le_word [a0; a1; a2; a3]))
      by (assumption || apply le_word_4_range).
    rewrite <- (unmix_word_MIX h (Spec.le_word [b0; b1; b2; b3]))
      by (assumption || apply le_word_4_range).
    f_equal.
    rewrite <- (lxor_cancel_r (MIX h (Spec.le_word [a0; a1; a2; a3])) 4).
    rewrite Hx. apply lxor_cancel_r.
Qed.

Lemma MIX_injective_witness :
  (is_u32 7 /\ is_u32 1 /\ is_u32 2 /\ 1 <> 2) /\
  MIX 7 1 <> MIX 7 2 /\
  MIX 1 7 <> MIX 2 7 /\
  (is_u32 (unmix_word 7 1) /\ MIX 7 (unmix_word 7 1) = 1) /\
  (is_u32 (unmix_state 7 1) /\ MIX (unmix_state 7 1) 7 = 1) /\
  Ppx_fold_blob false 7 4 [x01; x00; x00; x00]
  <> Ppx_fold_blob false 7 4 [x02; x00; x00; x00].
Proof.
  assert (H7 : is_u32 7) by (unfold is_u32; split; [discriminate | reflexivity]).
  assert (H1 : is_u32 1) by (unfold is_u32; split; [discriminate | reflexivity]).
  assert (H2 : is_u32 2) by (unfold is_u32; split; [discriminate | reflexivity]).
  assert (Hne : 1 <> 2) by discriminate.
  assert (Hb : [x01; x00; x00; x00] <> [x02; x00; x00; x00]) by discriminate.
  destruct MIX_injective as (Hd & Hh & Hsd & Hsh & Hblob).
  split; [auto |].
  split; [exact (Hd 7 1 2 H7 H1 H2 Hne) |].
  split; [exact (Hh 7 1 2 H7 H1 H2 Hne) |].
  split; [exact (Hsd 7 1 H7 H1) |].
  split; [exact (Hsh 7 1 H7 H1) |].
  exact (Hblob false 7 x01 x00 x00 x00 x02 x00 x00 x00 H7 Hb).
Defined.

(** * Further properties of the code *)

(** ** The two branches of [#ifdef ARCH_BIG_ENDIAN] *)

Lemma byte_at_cases (s : list byte) (i : Z) :
  byte_at s i = OutOfBounds \/ exists b : byte, byte_at s i = Done (byte_val b).
Proof.
  unfold byte_at. destruct (nth_error s (Z.to_nat i)) as [b |].
  - right. now exists b.
  - now left.
Qed.

Lemma load_block_endianness (s : list byte) (i : Z) :
  load_block true s i = load_block false s i.
Proof.
  unfold load_block.
  destruct (byte_at_cases s i) as [-> | [b0 ->]]; [reflexivity |].
  destruct (byte_at_cases s (usize (i + 1))) as [-> | [b1 ->]]; [reflexivity |].
  destruct (byte_at_cases s (usize (i + 2))) as [-> | [b2 ->]]; [reflexivity |].
  destruct (byte_at_cases s (usize (i + 3))) as [-> | [b3 ->]]; [reflexivity |].
  cbn [bind]. f_equal.
  apply or_bytes_le_word; apply byte_val_range.
Qed.

Lemma blob_blocks_endianness (fuel : nat) :
  forall (h i len : Z) (s : list byte),
    blob_blocks true fuel h i len s = blob_blocks false fuel h i len s.
Proof.
  induction fuel as [| fuel IH]; intros h i len s.
  - reflexivity.
  - rewrite !(blob_blocks_unfold _ (S fuel)).
    destruct (usize (i + 4) <=? len); [| reflexivity].
    rewrite load_block_endianness.
    destruct (load_block false s i) as [w | |]; cbn [bind];
      [apply IH | reflexivity | reflexivity].
Qed.

(** X1. The result of the block mixer does not depend on whether the file
    is compiled with [ARCH_BIG_ENDIAN]: the explicit reassembly of the four
    bytes and the 32-bit load of a little-endian host give the same word,
    for every state, length, buffer and amount of fuel, and so do
    [Ppx_fold_blob] and [Ppx_fold_string]. *)
Theorem Ppx_fold_blob_endianness (fuel : nat) (h len st : Z) (s : list byte) :
  Ppx_fold_blob_fuel true fuel h len s = Ppx_fold_blob_fuel false fuel h len s /\
  Ppx_fold_blob true h len s = Ppx_fold_blob false h len s /\
  Ppx_fold_string true st s = Ppx_fold_string false st s.
Proof.
  assert (H : forall f h' len', Ppx_fold_blob_fuel true f h' len' s
                                = Ppx_fold_blob_fuel false f h' len' s).
  { intros f h' len'. unfold Ppx_fold_blob_fuel.
    now rewrite blob_blocks_endianness. }
  split; [apply H |]. split.
  - unfold Ppx_fold_blob. apply H.
  - unfold Ppx_fold_string, Ppx_fold_blob. now rewrite H.
Qed.

(** ** Bytes past [len] *)

Lemma bind_Done {A B : Type} (m : outcome A) (k : A -> outcome B) (r : B) :
  bind m k = Done r -> exists a : A, m = Done a /\ k a = Done r.
Proof.
  destruct m as [a | |]; cbn [bind]; intros H; try discriminate.
  now exists a.
Qed.

Lemma byte_at_extend (s extra : list byte) (i b : Z) :
  byte_at s i = Done b -> byte_at (s ++ extra) i = Done b.
Proof.
  unfold byte_at. destruct (nth_error s (Z.to_nat i)) as [x |] eqn:E;
    [| discriminate].
  intros H. rewrite nth_error_app1; [now rewrite E |].
  apply nth_error_Some. now rewrite E.
Qed.

Lemma load_block_extend (be : bool) (s extra : list byte) (i w : Z) :
  load_block be s i = Done w -> load_block be (s ++ extra) i = Done w.
Proof.
  unfold load_block. intros H.
  apply bind_Done in H as (b0 & E0 & H).
  apply bind_Done in H as (b1 & E1 & H).
  apply bind_Done in H as (b2 & E2 & H).
  apply bind_Done in H as (b3 & E3 & H).
  rewrite (byte_at_extend _ _ _ _ E0), (byte_at_extend _ _ _ _ E1),
    (byte_at_extend _ _ _ _ E2), (byte_at_extend _ _ _ _ E3).
  exact H.
Qed.

Lemma blob_blocks_extend (be : bool) (extra : list byte) (fuel : nat) :
  forall (h i len : Z) (s : list byte) (r : Z * Z),
    blob_blocks be fuel h i len s = Done r ->
    blob_blocks be fuel h i len (s ++ extra) = Done r.
Proof.
  induction fuel as [| fuel IH]; intros h i len s r.
  - rewrite !(blob_blocks_unfold _ 0%nat).
    destruct (usize (i + 4) <=? len); [discriminate | trivial].
  - rewrite !(blob_blocks_unfold _ (S fuel)).
    destruct (usize (i + 4) <=? len); [| trivial].
    intros H. apply bind_Done in H as (w & Ew & H).
    rewrite (load_block_extend _ _ _ _ _ Ew). cbn [bind].
    now apply IH.
Qed.

Lemma blob_tail_extend (extra : list byte) (h i len : Z) (s : list byte) (r : Z) :
  blob_tail h i len s = Done r -> blob_tail h i len (s ++ extra) = Done r.
Proof.
  assert (H1 : forall w r', tail_case1 h w i s = Done r' ->
                            tail_case1 h w i (s ++ extra) = Done r').
  { intros w r'. unfold tail_case1. intros H.
    apply bind_Done in H as (b & E & H).
    now rewrite (byte_at_extend _ _ _ _ E). }
  assert (H2 : forall w r', tail_case2 h w i s = Done r' ->
                            tail_case2 h w i (s ++ extra) = Done r').
  { intros w r'. unfold tail_case2. intros H.
    apply bind_Done in H as (b & E & H).
    rewrite (byte_at_extend _ _ _ _ E). cbn [bind]. now apply H1. }
  unfold blob_tail.
  destruct (Z.land len 3) as [| [[| |] | [| |] |] |]; trivial.
  - unfold tail_case3. intros H.
    apply bind_Done in H as (b & E & H).
    rewrite (byte_at_extend _ _ _ _ E). cbn [bind]. now apply H2.
  - apply H2.
  - apply H1.
Qed.

Lemma Ppx_fold_blob_fuel_extend (be : bool) (extra : list byte) (fuel : nat)
  (h len : Z) (s : list byte) (r : Z) :
  Ppx_fold_blob_fuel be fuel h len s = Done r ->
  Ppx_fold_blob_fuel be fuel h len (s ++ extra) = Done r.
Proof.
  unfold Ppx_fold_blob_fuel. intros H.
  apply bind_Done in H as ([h' i] & E & H).
  rewrite (blob_blocks_extend _ _ _ _ _ _ _ _ E). cbn [bind].
  apply bind_Done in H as (h'' & E' & H).
  now rewrite (blob_tail_extend _ _ _ _ _ _ E').
Qed.

(** [Ppx_fold_blob] reads nothing after the first [len] bytes: whatever
    follows them in memory, the result is the one for the buffer cut at
    [len]. *)
Lemma Ppx_fold_blob_ignores_rest (be : bool) (h : Z) (s extra : list byte) :
  is_u32 h ->
  Z.of_nat (length s) + 4 < 2 ^ 64 ->
  Ppx_fold_blob be h (Z.of_nat (length s)) (s ++ extra)
  = Ppx_fold_blob be h (Z.of_nat (length s)) s.
Proof.
  intros Hh Hlen.
  rewrite (Ppx_fold_blob_refines be h s Hh Hlen).
  unfold Ppx_fold_blob. apply Ppx_fold_blob_fuel_extend.
  now apply Ppx_fold_blob_refines.
Qed.

(** ** Bits of a rotation *)

Lemma u32_testbit_high (x j : Z) : is_u32 x -> 32 <= j -> Z.testbit x j = false.
Proof.
  intros Hx Hj. unfold is_u32 in Hx.
  rewrite <- (Z.mod_small x (2 ^ 32)) by lia.
  apply Z.mod_pow2_bits_high. lia.
Qed.

(** X2. [ROTL32] is the rotation of a 32-bit word: bit [i] of the result is
    bit [i - n] of the argument, counted modulo 32; the result is again a
    32-bit word, and rotating it by [32 - n] gives the argument back. *)
Theorem ROTL32_rotates (x n : Z) :
  is_u32 x -> 0 < n < 32 ->
  (forall i : Z, 0 <= i < 32 ->
                 Z.testbit (ROTL32 x n) i = Z.testbit x ((i - n) mod 32)) /\
  is_u32 (ROTL32 x n) /\
  ROTL32 (ROTL32 x n) (32 - n) = x.
Proof.
  intros Hx Hn. split; [| split].
  - intros i Hi. unfold ROTL32, u32.
    rewrite Z.lor_spec, Z.testbit_mod_pow2, Z.shiftl_spec, Z.shiftr_spec by lia.
    destruct (Z.ltb_spec i 32) as [_ | Hge]; [| lia]. cbn [andb].
    destruct (Z.lt_ge_cases i n) as [Hlt | Hge].
    + rewrite (Z.testbit_neg_r x (i - n)) by lia. cbn [orb].
      f_equal.
      rewrite <- (Z.mod_unique (i - n) 32 (-1) (i + (32 - n))); lia.
    + rewrite (u32_testbit_high x (i + (32 - n))) by (assumption || lia).
      rewrite orb_false_r. f_equal.
      symmetry. apply Z.mod_small. lia.
  - now apply ROTL32_range.
  - now apply ROTL32_inverse.
Qed.

Lemma ROTL32_rotates_witness :
  (is_u32 0x80000001 /\ 0 < 13 < 32) /\
  (forall i : Z, 0 <= i < 32 ->
                 Z.testbit (ROTL32 0x80000001 13) i
                 = Z.testbit 0x80000001 ((i - 13) mod 32)) /\
  is_u32 (ROTL32 0x80000001 13) /\
  ROTL32 (ROTL32 0x80000001 13) (32 - 13) = 0x80000001.
Proof.
  assert (H1 : is_u32 0x80000001)
    by (unfold is_u32; split; [discriminate | reflexivity]).
  assert (H2 : 0 < 13 < 32) by (split; reflexivity).
  split; [auto |].
  exact (ROTL32_rotates 0x80000001 13 H1 H2).
Defined.

(** ** The avalanche is one-to-one *)

Lemma xorshift_u32 (h n : Z) :
  is_u32 h -> 0 <= n -> is_u32 (Z.lxor h (Z.shiftr h n)).
Proof. intros Hh Hn. apply lxor_u32; [assumption | now apply shiftr_u32]. Qed.

(** [h ^= h >> 16] is its own inverse on 32-bit words. *)
Lemma xorshift16_involutive (h : Z) :
  is_u32 h ->
  Z.lxor (Z.lxor h (Z.shiftr h 16)) (Z.shiftr (Z.lxor h (Z.shiftr h 16)) 16) = h.
Proof.
  intros Hh. apply Z.bits_inj'; intros i Hi.
  rewrite !Z.lxor_spec, !Z.shiftr_spec, !Z.lxor_spec, Z.shiftr_spec by lia.
  rewrite (u32_testbit_high h (i + 16 + 16)) by (assumption || lia).
  destruct (Z.testbit h i), (Z.testbit h (i + 16)); reflexivity.
Qed.

(** [h ^= h >> 13] is undone by [h ^ (h >> 13) ^ (h >> 26)], and undoes it. *)
Lemma xorshift13_inverse (h : Z) :
  is_u32 h ->
  let x := Z.lxor h (Z.shiftr h 13) in
  Z.lxor (Z.lxor x (Z.shiftr x 13)) (Z.shiftr x 26) = h.
Proof.
  intros Hh x. unfold x. apply Z.bits_inj'; intros i Hi.
  rewrite !Z.lxor_spec, !Z.shiftr_spec, !Z.lxor_spec, !Z.shiftr_spec by lia.
  replace (i + 13 + 13) with (i + 26) by lia.
  rewrite (u32_testbit_high h (i + 26 + 13)) by (assumption || lia).
  destruct (Z.testbit h i), (Z.testbit h (i + 13)), (Z.testbit h (i + 26));
    reflexivity.
Qed.

Lemma xorshift13_inverse_r (h : Z) :
  is_u32 h ->
  let y := Z.lxor (Z.lxor h (Z.shiftr h 13)) (Z.shiftr h 26) in
  Z.lxor y (Z.shiftr y 13) = h.
Proof.
  intros Hh y. unfold y. apply Z.bits_inj'; intros i Hi.
  rewrite !Z.lxor_spec, !Z.shiftr_spec, !Z.lxor_spec, !Z.shiftr_spec by lia.
  replace (i + 13 + 13) with (i + 26) by lia.
  rewrite (u32_testbit_high h (i + 13 + 26)) by (assumption || lia).
  destruct (Z.testbit h i), (Z.testbit h (i + 13)), (Z.testbit h (i + 26));
    reflexivity.
Qed.

Lemma mul_f1_inverse (h : Z) :
  is_u32 h -> u32 (u32 (h * 0x85ebca6b) * 0xa5cb9243) = h.
Proof. intros H. word_lia. Qed.

Lemma mul_f2_inverse (h : Z) :
  is_u32 h -> u32 (u32 (h * 0xc2b2ae35) * 0x7ed1b41d) = h.
Proof. intros H. word_lia. Qed.

Lemma mul_f1_inverse_r (h : Z) :
  is_u32 h -> u32 (u32 (h * 0xa5cb9243) * 0x85ebca6b) = h.
Proof. intros H. word_lia. Qed.

Lemma mul_f2_inverse_r (h : Z) :
  is_u32 h -> u32 (u32 (h * 0x7ed1b41d) * 0xc2b2ae35) = h.
Proof. intros H. word_lia. Qed.

Lemma FINAL_MIX_range (h : Z) : is_u32 h -> is_u32 (FINAL_MIX h).
Proof.
  intros Hh. unfold FINAL_MIX. apply xorshift_u32; [apply u32_range | lia].
Qed.

Lemma unfinal_mix_range (h : Z) : is_u32 h -> is_u32 (unfinal_mix h).
Proof.
  intros Hh. unfold unfinal_mix. apply xorshift_u32; [apply u32_range | lia].
Qed.

Lemma unfinal_mix_FINAL_MIX (h : Z) : is_u32 h -> unfinal_mix (FINAL_MIX h) = h.
Proof.
  intros Hh. unfold unfinal_mix, FINAL_MIX.
  set (h1 := Z.lxor h (Z.shiftr h 16)).
  assert (H1 : is_u32 h1) by (apply xorshift_u32; [assumption | lia]).
  set (h2 := u32 (h1 * 0x85ebca6b)).
  assert (H2 : is_u32 h2) by apply u32_range.
  set (h3 := Z.lxor h2 (Z.shiftr h2 13)).
  assert (H3 : is_u32 h3) by (apply xorshift_u32; [assumption | lia]).
  set (h4 := u32 (h3 * 0xc2b2ae35)).
  assert (H4 : is_u32 h4) by apply u32_range.
  rewrite (xorshift16_involutive h4 H4).
  unfold h4. rewrite (mul_f2_inverse h3 H3).
  unfold h3. rewrite (xorshift13_inverse h2 H2).
  unfold h2. rewrite (mul_f1_inverse h1 H1).
  unfold h1. now apply xorshift16_involutive.
Qed.

Lemma FINAL_MIX_unfinal_mix (h : Z) : is_u32 h -> FINAL_MIX (unfinal_mix h) = h.
Proof.
  intros Hh. unfold unfinal_mix, FINAL_MIX.
  set (h1 := Z.lxor h (Z.shiftr h 16)).
  assert (H1 : is_u32 h1) by (apply xorshift_u32; [assumption | lia]).
  set (h2 := u32 (h1 * 0x7ed1b41d)).
  assert (H2 : is_u32 h2) by apply u32_range.
  set (h3 := Z.lxor (Z.lxor h2 (Z.shiftr h2 13)) (Z.shiftr h2 26)).
  assert (H3 : is_u32 h3).
  { apply lxor_u32; [apply xorshift_u32; [assumption | lia] |].
    apply shiftr_u32; [assumption | lia]. }
  set (h4 := u32 (h3 * 0xa5cb9243)).
  assert (H4 : is_u32 h4) by apply u32_range.
  rewrite (xorshift16_involutive h4 H4).
  unfold h4. rewrite (mul_f1_inverse_r h3 H3).
  unfold h3. rewrite (xorshift13_inverse_r h2 H2).
  unfold h2. rewrite (mul_f2_inverse_r h1 H1).
  unfold h1. now apply xorshift16_involutive.
Qed.

(** X3. [FINAL_MIX] is a bijection of the 32-bit words: two different
    accumulators never have the same avalanche, and [unfinal_mix] is its
    inverse on both sides. *)
Theorem FINAL_MIX_bijective :
  (forall h1 h2 : Z,
      is_u32 h1 -> is_u32 h2 -> h1 <> h2 -> FINAL_MIX h1 <> FINAL_MIX h2) /\
  (forall h : Z, is_u32 h -> is_u32 (FINAL_MIX h) /\ unfinal_mix (FINAL_MIX h) = h) /\
  (forall h' : Z,
      is_u32 h' -> is_u32 (unfinal_mix h') /\ FINAL_MIX (unfinal_mix h') = h').
Proof.
  split; [| split].
  - intros h1 h2 H1 H2 Hne Heq. apply Hne.
    rewrite <- (unfinal_mix_FINAL_MIX h1 H1), <- (unfinal_mix_FINAL_MIX h2 H2).
    now rewrite Heq.
  - intros h Hh. split; [now apply FINAL_MIX_range | now apply unfinal_mix_FINAL_MIX].
  - intros h' Hh'. split; [now apply unfinal_mix_range | now apply FINAL_MIX_unfinal_mix].
Qed.

Lemma FINAL_MIX_bijective_witness :
  (is_u32 1 /\ is_u32 2 /\ 1 <> 2) /\
  FINAL_MIX 1 <> FINAL_MIX 2 /\
  (is_u32 (FINAL_MIX 1) /\ unfinal_mix (FINAL_MIX 1) = 1) /\
  (is_u32 (unfinal_mix 1) /\ FINAL_MIX (unfinal_mix 1) = 1).
Proof.
  assert (H1 : is_u32 1) by (unfold is_u32; split; [discriminate | reflexivity]).
  assert (H2 : is_u32 2) by (unfold is_u32; split; [discriminate | reflexivity]).
  assert (Hne : 1 <> 2) by discriminate.
  destruct FINAL_MIX_bijective as (Hinj & Hl & Hr).
  split; [auto |].
  split; [exact (Hinj 1 2 H1 H2 Hne) |].
  split; [exact (Hl 1 H1) | exact (Hr 1 H1)].
Defined.

(** ** The accumulators behind an output *)

Lemma land_mask_mod (x : Z) : Z.land x 0x3FFFFFFF = x mod 2 ^ 30.
Proof. change 0x3FFFFFFF with (Z.ones 30). apply Z.land_ones. lia. Qed.

Lemma Ppx_get_hash_value_mod (h : Z) :
  is_u32 h -> Long_val (Ppx_get_hash_value (Val_long h)) = FINAL_MIX h mod 2 ^ 30.
Proof.
  intros Hh. rewrite Ppx_get_hash_value_decode, state_roundtrip_int by assumption.
  apply land_mask_mod.
Qed.

Lemma split_30 (w : Z) :
  is_u32 w -> 0 <= w / 2 ^ 30 < 4 /\ w = w mod 2 ^ 30 + w / 2 ^ 30 * 2 ^ 30.
Proof.
  unfold is_u32. change (2 ^ 32) with 4294967296. change (2 ^ 30) with 1073741824.
  intros Hw. Z.div_mod_to_equations. lia.
Qed.

Lemma join_30 (out k : Z) :
  0 <= out < 2 ^ 30 -> 0 <= k < 4 ->
  is_u32 (out + k * 2 ^ 30) /\ (out + k * 2 ^ 30) mod 2 ^ 30 = out.
Proof.
  unfold is_u32. change (2 ^ 32) with 4294967296. change (2 ^ 30) with 1073741824.
  intros Ho Hk. split; [lia |]. Z.div_mod_to_equations. lia.
Qed.

(** X4. The mask of [Ppx_get_hash_value] is the only loss of the
    finalization: an accumulator [h] has the output [out] exactly when [out]
    is a 30-bit number and [h] is one of the four accumulators
    [unfinal_mix (out + k * 2^30)], [k = 0 .. 3] (which are pairwise
    different, see [preimages_distinct] below). *)
Theorem Ppx_get_hash_value_preimages (h out : Z) :
  is_u32 h ->
  Long_val (Ppx_get_hash_value (Val_long h)) = out <->
  exists k : Z,
    0 <= k < 4 /\ 0 <= out < 2 ^ 30 /\ h = unfinal_mix (out + k * 2 ^ 30).
Proof.
  intros Hh. rewrite Ppx_get_hash_value_mod by assumption. split.
  - intros <-.
    destruct (split_30 (FINAL_MIX h) (FINAL_MIX_range h Hh)) as [Hk Hw].
    exists (FINAL_MIX h / 2 ^ 30).
    split; [assumption |]. split; [apply Z.mod_pos_bound; lia |].
    rewrite <- Hw. symmetry. now apply unfinal_mix_FINAL_MIX.
  - intros (k & Hk & Hout & ->).
    destruct (join_30 out k Hout Hk) as [Hw Hm].
    now rewrite FINAL_MIX_unfinal_mix.
Qed.

Lemma Ppx_get_hash_value_preimages_witness :
  is_u32 0 /\
  (Long_val (Ppx_get_hash_value (Val_long 0)) = 0 <->
   exists k : Z, 0 <= k < 4 /\ 0 <= 0 < 2 ^ 30 /\ 0 = unfinal_mix (0 + k * 2 ^ 30)).
Proof.
  assert (H0 : is_u32 0) by (unfold is_u32; split; [discriminate | reflexivity]).
  split; [exact H0 |].
  exact (Ppx_get_hash_value_preimages 0 0 H0).
Defined.

(** The four accumulators of an output are pairwise different. *)
Lemma preimages_distinct (out k1 k2 : Z) :
  0 <= out < 2 ^ 30 -> 0 <= k1 < 4 -> 0 <= k2 < 4 ->
  unfinal_mix (out + k1 * 2 ^ 30) = unfinal_mix (out + k2 * 2 ^ 30) -> k1 = k2.
Proof.
  intros Ho H1 H2 Heq.
  destruct (join_30 out k1 Ho H1) as [Hw1 _].
  destruct (join_30 out k2 Ho H2) as [Hw2 _].
  apply (f_equal FINAL_MIX) in Heq.
  rewrite !FINAL_MIX_unfinal_mix in Heq by assumption.
  change (2 ^ 30) with 1073741824 in Heq. lia.
Qed.

(** ** The state between two stubs *)

Lemma read_state_long (n : Z) : is_long n -> u32 (Long_val (Val_long n)) = u32 n.
Proof. intros H. now rewrite Long_val_Val_long. Qed.

Lemma read_state_int (n : Z) : is_long n -> u32 (Int_val (Val_long n)) = u32 n.
Proof.
  intros H. unfold Int_val. rewrite u32_s32. now apply read_state_long.
Qed.

Lemma read_state_reduced (n : Z) :
  is_long n -> u32 (Long_val (Val_long (u32 n))) = u32 (Long_val (Val_long n)).
Proof.
  intros H. rewrite (read_state_long n H).
  apply state_roundtrip, u32_range.
Qed.

(** X5. Every stub converts the accumulator it receives to [uint32_t]: an
    OCaml integer [n] outside of [[0, 2^32)] (a negative one, for instance)
    is taken modulo [2^32], and gives the result of the reduced
    accumulator. *)
Theorem state_taken_modulo (be : bool) (double : Type)
  (mix_intnat mix_int64 : Z -> Z -> Z) (mix_double : Z -> double -> Z)
  (n i : Z) (d : double) (s : list byte) :
  is_long n ->
  Ppx_fold_int32 (Val_long n) i = Ppx_fold_int32 (Val_long (u32 n)) i /\
  Ppx_fold_nativeint mix_intnat (Val_long n) i
  = Ppx_fold_nativeint mix_intnat (Val_long (u32 n)) i /\
  Ppx_fold_int64 mix_int64 (Val_long n) i
  = Ppx_fold_int64 mix_int64 (Val_long (u32 n)) i /\
  Ppx_fold_int mix_intnat (Val_long n) i
  = Ppx_fold_int mix_intnat (Val_long (u32 n)) i /\
  Ppx_fold_float double mix_double (Val_long n) d
  = Ppx_fold_float double mix_double (Val_long (u32 n)) d /\
  Ppx_fold_string be (Val_long n) s = Ppx_fold_string be (Val_long (u32 n)) s /\
  Ppx_get_hash_value (Val_long n) = Ppx_get_hash_value (Val_long (u32 n)).
Proof.
  intros Hn.
  pose proof (read_state_reduced n Hn) as E.
  unfold Ppx_fold_int32, Ppx_fold_nativeint, Ppx_fold_int64, Ppx_fold_int,
    Ppx_fold_float, Ppx_fold_string, Ppx_get_hash_value.
  rewrite E.
  repeat match goal with |- _ /\ _ => split end; try reflexivity.
  rewrite (read_state_int n Hn).
  rewrite state_roundtrip_int by apply u32_range.
  reflexivity.
Qed.

Lemma state_taken_modulo_witness :
  is_long (-1) /\
  Ppx_fold_int32 (Val_long (-1)) 42 = Ppx_fold_int32 (Val_long (u32 (-1))) 42 /\
  Ppx_fold_nativeint mix_two_words (Val_long (-1)) 42
  = Ppx_fold_nativeint mix_two_words (Val_long (u32 (-1))) 42 /\
  Ppx_fold_int64 mix_two_words (Val_long (-1)) 42
  = Ppx_fold_int64 mix_two_words (Val_long (u32 (-1))) 42 /\
  Ppx_fold_int mix_two_words (Val_long (-1)) 42
  = Ppx_fold_int mix_two_words (Val_long (u32 (-1))) 42 /\
  Ppx_fold_float Z mix_two_words (Val_long (-1)) 7
  = Ppx_fold_float Z mix_two_words (Val_long (u32 (-1))) 7 /\
  Ppx_fold_string false (Val_long (-1)) [x61]
  = Ppx_fold_string false (Val_long (u32 (-1))) [x61] /\
  Ppx_get_hash_value (Val_long (-1)) = Ppx_get_hash_value (Val_long (u32 (-1))).
Proof.
  assert (H : is_long (-1)) by (unfold is_long; split; [discriminate | reflexivity]).
  split; [exact H |].
  exact (state_taken_modulo false Z mix_two_words mix_two_words mix_two_words
           (-1) 42 7 [x61] H).
Defined.

Lemma Val_long_carries_state (x : Z) : is_u32 x -> carries_state (Val_long x).
Proof.
  intros Hx. unfold carries_state.
  rewrite state_roundtrip_int, state_roundtrip by assumption.
  rewrite Long_val_Val_long by now apply is_u32_is_long.
  auto using Val_long_u32_immediate.
Qed.

(** The state stays a 32-bit word along the loop and the [switch]. *)
Lemma blob_blocks_range (be : bool) (fuel : nat) :
  forall (h i len : Z) (s : list byte) (h' i' : Z),
    is_u32 h -> blob_blocks be fuel h i len s = Done (h', i') -> is_u32 h'.
Proof.
  induction fuel as [| fuel IH]; intros h i len s h' i' Hh.
  - rewrite blob_blocks_unfold.
    destruct (usize (i + 4) <=? len); [discriminate |].
    intros H. injection H as <- _. assumption.
  - rewrite blob_blocks_unfold.
    destruct (usize (i + 4) <=? len).
    + intros H. apply bind_Done in H as (w & _ & H).
      apply (IH _ _ _ _ _ _ (MIX_range h w) H).
    + intros H. injection H as <- _. assumption.
Qed.

Lemma blob_tail_range (h i len : Z) (s : list byte) (h' : Z) :
  is_u32 h -> blob_tail h i len s = Done h' -> is_u32 h'.
Proof.
  intros Hh.
  assert (H1 : forall w r, tail_case1 h w i s = Done r -> is_u32 r).
  { intros w r. unfold tail_case1. intros H.
    apply bind_Done in H as (b & _ & H). injection H as <-. apply MIX_range. }
  assert (H2 : forall w r, tail_case2 h w i s = Done r -> is_u32 r).
  { intros w r. unfold tail_case2. intros H.
    apply bind_Done in H as (b & _ & H). now apply H1 in H. }
  unfold blob_tail.
  destruct (Z.land len 3) as [| [[| |] | [| |] |] |];
    try (intros H; injection H as <-; assumption).
  - unfold tail_case3. intros H.
    apply bind_Done in H as (b & _ & H). now apply H2 in H.
  - apply H2.
  - apply H1.
Qed.

Lemma Ppx_fold_blob_fuel_range (be : bool) (fuel : nat) (h len : Z)
  (s : list byte) (r : Z) :
  is_u32 h -> Ppx_fold_blob_fuel be fuel h len s = Done r -> is_u32 r.
Proof.
  intros Hh. unfold Ppx_fold_blob_fuel. intros H.
  apply bind_Done in H as ([h1 i1] & E1 & H).
  apply bind_Done in H as (h2 & E2 & H).
  injection H as <-.
  apply lxor_u32; [| apply u32_range].
  apply (blob_tail_range _ _ _ _ _ (blob_blocks_range _ _ _ _ _ _ _ _ Hh E1) E2).
Qed.

(** X6. The accumulator is carried through OCaml integers without loss:
    whatever the incoming value and the folded value, every fold returns an
    immediate integer in [[0, 2^32)], which the next stub reads back bit for
    bit, through [Long_val] as well as through [Int_val]. For
    [Ppx_fold_string] this holds for every result it returns, whatever the
    amount of fuel and the length. *)
Theorem folds_carry_state (be : bool) (double : Type)
  (mix_intnat mix_int64 : Z -> Z -> Z) (mix_double : Z -> double -> Z)
  (st i : Z) (d : double) (s : list byte) :
  carries_state (Ppx_fold_int32 st i) /\
  carries_state (Ppx_fold_nativeint mix_intnat st i) /\
  carries_state (Ppx_fold_int64 mix_int64 st i) /\
  carries_state (Ppx_fold_int mix_intnat st i) /\
  carries_state (Ppx_fold_float double mix_double st d) /\
  (forall st' : Z, Ppx_fold_string be st s = Done st' -> carries_state st').
Proof.
  repeat match goal with |- _ /\ _ => split end.
  - apply Val_long_carries_state, mix_step_range.
  - apply Val_long_carries_state, u32_range.
  - apply Val_long_carries_state, u32_range.
  - apply Val_long_carries_state, u32_range.
  - apply Val_long_carries_state, u32_range.
  - intros st'. unfold Ppx_fold_string, Ppx_fold_blob. intros H.
    apply bind_Done in H as (r & E & H). injection H as <-.
    apply Val_long_carries_state.
    apply (Ppx_fold_blob_fuel_range _ _ _ _ _ _ (u32_range _) E).
Qed.

Lemma folds_carry_state_witness :
  Ppx_fold_string false (Val_long 7) [x61; x62; x63; x64; x65]
  = Done (Val_long 1765462694) /\
  carries_state (Val_long 1765462694).
Proof.
  assert (H : Ppx_fold_string false (Val_long 7) [x61; x62; x63; x64; x65]
              = Done (Val_long 1765462694)) by (vm_compute; reflexivity).
  split; [exact H |].
  exact (proj2 (proj2 (proj2 (proj2 (proj2
           (folds_carry_state false Z mix_two_words mix_two_words mix_two_words
              (Val_long 7) 0 0 [x61; x62; x63; x64; x65])))))
           (Val_long 1765462694) H).
Defined.

(** X7. The two one-call hashes return an integer in [[0, 2^30 - 1]], like
    [Ppx_get_hash_value]: for every string, and for every double whatever
    the runtime's [caml_hash_mix_double] returns. *)
Theorem direct_hashes_bounded (double : Type) (mix_double : Z -> double -> Z)
  (s : list byte) (d : double) :
  0 <= Long_val (Ppx_hash_string s) <= 2 ^ 30 - 1 /\
  0 <= Long_val (Ppx_hash_double double mix_double d) <= 2 ^ 30 - 1.
Proof.
  assert (H : forall h, 0 <= Long_val (FINAL_MIX_AND_RETURN h) <= 2 ^ 30 - 1).
  { intros h. rewrite FINAL_MIX_AND_RETURN_eq. unfold Val_int.
    pose proof (land_mask_range (FINAL_MIX h)) as Hr.
    rewrite Long_val_Val_long; [lia |].
    unfold is_long. change (2 ^ 30) with 1073741824 in Hr.
    change (2 ^ 62) with 4611686018427387904. lia. }
  split; apply H.
Qed.

(** ** The state before the length is mixed in *)

Lemma fold_blob_mixed_state (h len : Z) (s : list byte) :
  Spec.fold_blob h len s = Z.lxor (mixed_state h len s) (u32 len).
Proof.
  unfold Spec.fold_blob, mixed_state.
  now destruct (Spec.mix_blocks h s) as [h' trailing].
Qed.

Lemma mixed_state_range (h len : Z) (s : list byte) :
  is_u32 h -> is_u32 (mixed_state h len s).
Proof.
  intros Hh.
  rewrite <- (lxor_cancel_r (mixed_state h len s) (u32 len)).
  rewrite <- fold_blob_mixed_state.
  apply lxor_u32; [now apply fold_blob_range | apply u32_range].
Qed.

(** One full block in front of the buffer is one mixing step. *)
Lemma mixed_state_block (h len : Z) (b0 b1 b2 b3 : byte) (rest : list byte) :
  mixed_state h (len + 4) (b0 :: b1 :: b2 :: b3 :: rest)
  = mixed_state (Spec.mix_step h (Spec.le_word [b0; b1; b2; b3])) len rest.
Proof.
  unfold mixed_state. cbn [Spec.mix_blocks].
  replace ((len + 4) mod 4) with (len mod 4); [reflexivity |].
  rewrite <- (Z.mul_1_l 4) at 2. now rewrite Z.mod_add by lia.
Qed.

Lemma mixed_state_nil (h : Z) : mixed_state h 0 [] = h.
Proof. reflexivity. Qed.

(** A prefix made of full blocks can be mixed first. *)
Lemma mixed_state_app (k : nat) :
  forall (h len2 : Z) (s1 s2 : list byte),
    length s1 = (4 * k)%nat ->
    mixed_state h (Z.of_nat (length s1) + len2) (s1 ++ s2)
    = mixed_state (mixed_state h (Z.of_nat (length s1)) s1) len2 s2.
Proof.
  induction k as [| k IH]; intros h len2 s1 s2 Hlen.
  - destruct s1; [| discriminate]. cbn [length app Z.of_nat].
    now rewrite mixed_state_nil.
  - destruct s1 as [| b0 [| b1 [| b2 [| b3 s1]]]]; cbn [length] in Hlen; try lia.
    cbn [app length].
    replace (Z.of_nat (S (S (S (S (length s1))))) + len2)
      with ((Z.of_nat (length s1) + len2) + 4) by lia.
    replace (Z.of_nat (S (S (S (S (length s1))))))
      with (Z.of_nat (length s1) + 4) by lia.
    rewrite !mixed_state_block. apply IH. lia.
Qed.

(** A zero byte added to an incomplete last block does not change the word
    that is mixed. *)
Lemma mixed_state_zero_padded (n : nat) :
  forall (s : list byte) (h : Z),
    (length s <= n)%nat ->
    Z.of_nat (length s) mod 4 <> 0 ->
    mixed_state h (Z.of_nat (length s) + 1) (s ++ [x00])
    = mixed_state h (Z.of_nat (length s)) s.
Proof.
  induction n as [| n IH]; intros s h Hn Hmod.
  - destruct s; [| cbn in Hn; lia]. now contradiction Hmod.
  - destruct s as [| b0 [| b1 [| b2 [| b3 rest]]]].
    + now contradiction Hmod.
    + unfold mixed_state. cbn [app length Spec.mix_blocks].
      change (Z.of_nat 1 + 1) with 2. change (Z.of_nat 1) with 1.
      change (2 mod 4 =? 0) with false. change (1 mod 4 =? 0) with false.
      cbv iota. f_equal; cbn [Spec.le_word]; change (byte_val x00) with 0; lia.
    + unfold mixed_state. cbn [app length Spec.mix_blocks].
      change (Z.of_nat 2 + 1) with 3. change (Z.of_nat 2) with 2.
      change (3 mod 4 =? 0) with false. change (2 mod 4 =? 0) with false.
      cbv iota. f_equal; cbn [Spec.le_word]; change (byte_val x00) with 0; lia.
    + unfold mixed_state. cbn [app length Spec.mix_blocks].
      change (Z.of_nat 3 + 1) with 4. change (Z.of_nat 3) with 3.
      change (4 mod 4 =? 0) with true. change (3 mod 4 =? 0) with false.
      cbv iota. f_equal; cbn [Spec.le_word]; change (byte_val x00) with 0; lia.
    + cbn [length] in Hn, Hmod |- *. cbn [app].
      replace (Z.of_nat (S (S (S (S (length rest))))) + 1)
        with ((Z.of_nat (length rest) + 1) + 4) by lia.
      replace (Z.of_nat (S (S (S (S (length rest))))))
        with (Z.of_nat (length rest) + 4) in * by lia.
      rewrite !mixed_state_block. apply IH; [lia |].
      intros E. apply Hmod.
      rewrite <- (Z.mul_1_l 4) at 1. now rewrite Z.mod_add by lia.
Qed.

Lemma Ppx_fold_blob_mixed_state (be : bool) (h : Z) (s : list byte) :
  is_u32 h ->
  Z.of_nat (length s) + 4 < 2 ^ 64 ->
  Ppx_fold_blob be h (Z.of_nat (length s)) s
  = Done (Z.lxor (mixed_state h (Z.of_nat (length s)) s) (u32 (Z.of_nat (length s)))).
Proof.
  intros Hh Hlen. rewrite Ppx_fold_blob_refines by assumption.
  now rewrite fold_blob_mixed_state.
Qed.

(** X8. A zero byte appended to a buffer whose last block is incomplete
    only changes the length that is mixed in at the end: the partial word
    has its missing high bytes at zero, so the word that is mixed stays the
    same. The result for the padded buffer is the result for the buffer
    with the exclusive-or of [len] taken back and that of [len + 1] put
    in. *)
Theorem Ppx_fold_blob_zero_padded (be : bool) (h : Z) (s : list byte) :
  is_u32 h ->
  Z.of_nat (length s) mod 4 <> 0 ->
  Z.of_nat (length s) + 5 < 2 ^ 64 ->
  exists r : Z,
    Ppx_fold_blob be h (Z.of_nat (length s)) s = Done r /\
    Ppx_fold_blob be h (Z.of_nat (length s) + 1) (s ++ [x00])
    = Done (Z.lxor (Z.lxor r (u32 (Z.of_nat (length s))))
              (u32 (Z.of_nat (length s) + 1))).
Proof.
  intros Hh Hmod Hlen.
  eexists. split; [apply Ppx_fold_blob_mixed_state; [assumption | lia] |].
  rewrite lxor_cancel_r.
  assert (E : Z.of_nat (length s) + 1 = Z.of_nat (length (s ++ [x00]))).
  { rewrite length_app. cbn [length]. lia. }
  rewrite E at 1.
  rewrite Ppx_fold_blob_mixed_state by (assumption || lia).
  rewrite <- E.
  now rewrite (mixed_state_zero_padded (length s) s h (le_n _) Hmod).
Qed.

Lemma Ppx_fold_blob_zero_padded_witness :
  (is_u32 7 /\ Z.of_nat (length [x61; x62]) mod 4 <> 0 /\
   Z.of_nat (length [x61; x62]) + 5 < 2 ^ 64) /\
  exists r : Z,
    Ppx_fold_blob true 7 (Z.of_nat (length [x61; x62])) [x61; x62] = Done r /\
    Ppx_fold_blob true 7 (Z.of_nat (length [x61; x62]) + 1) ([x61; x62] ++ [x00])
    = Done (Z.lxor (Z.lxor r (u32 (Z.of_nat (length [x61; x62]))))
              (u32 (Z.of_nat (length [x61; x62]) + 1))).
Proof.
  assert (H1 : is_u32 7) by (unfold is_u32; split; [discriminate | reflexivity]).
  assert (H2 : Z.of_nat (length [x61; x62]) mod 4 <> 0) by discriminate.
  assert (H3 : Z.of_nat (length [x61; x62]) + 5 < 2 ^ 64) by reflexivity.
  split; [auto |].
  exact (Ppx_fold_blob_zero_padded true 7 [x61; x62] H1 H2 H3).
Defined.

(** X9. Mixing can be resumed at a block boundary: when [s1] is made of
    full 4-byte blocks, the result for [s1 ++ s2] is obtained from the
    result [r1] for [s1] by taking its length back, mixing [s2] from that
    state, and replacing the length of [s2] by the total length. *)
Theorem Ppx_fold_blob_app (be : bool) (h : Z) (s1 s2 : list byte) :
  is_u32 h ->
  Z.of_nat (length s1) mod 4 = 0 ->
  Z.of_nat (length (s1 ++ s2)) + 4 < 2 ^ 64 ->
  exists r1 r2 : Z,
    Ppx_fold_blob be h (Z.of_nat (length s1)) s1 = Done r1 /\
    Ppx_fold_blob be (Z.lxor r1 (u32 (Z.of_nat (length s1))))
      (Z.of_nat (length s2)) s2 = Done r2 /\
    Ppx_fold_blob be h (Z.of_nat (length (s1 ++ s2))) (s1 ++ s2)
    = Done (Z.lxor (Z.lxor r2 (u32 (Z.of_nat (length s2))))
              (u32 (Z.of_nat (length (s1 ++ s2))))).
Proof.
  intros Hh Hmod Hlen.
  pose proof Hlen as Hlen'. rewrite length_app in Hlen'.
  assert (Hk : exists k : nat, length s1 = (4 * k)%nat).
  { exists (length s1 / 4)%nat.
    assert (Hm : (length s1 mod 4 = 0)%nat).
    { apply Nat2Z.inj. rewrite Nat2Z.inj_mod. exact Hmod. }
    pose proof (Nat.div_mod_eq (length s1) 4). lia. }
  destruct Hk as [k Hk].
  eexists. eexists.
  split; [apply Ppx_fold_blob_mixed_state; [assumption | lia] |].
  rewrite lxor_cancel_r.
  split; [apply Ppx_fold_blob_mixed_state; [now apply mixed_state_range | lia] |].
  rewrite lxor_cancel_r.
  rewrite Ppx_fold_blob_mixed_state by assumption.
  rewrite length_app, Nat2Z.inj_add.
  now rewrite (mixed_state_app k h (Z.of_nat (length s2)) s1 s2 Hk).
Qed.

Lemma Ppx_fold_blob_app_witness :
  (is_u32 7 /\ Z.of_nat (length [x61; x62; x63; x64]) mod 4 = 0 /\
   Z.of_nat (length ([x61; x62; x63; x64] ++ [x65; x66])) + 4 < 2 ^ 64) /\
  exists r1 r2 : Z,
    Ppx_fold_blob false 7 (Z.of_nat (length [x61; x62; x63; x64]))
      [x61; x62; x63; x64] = Done r1 /\
    Ppx_fold_blob false (Z.lxor r1 (u32 (Z.of_nat (length [x61; x62; x63; x64]))))
      (Z.of_nat (length [x65; x66])) [x65; x66] = Done r2 /\
    Ppx_fold_blob false 7 (Z.of_nat (length ([x61; x62; x63; x64] ++ [x65; x66])))
      ([x61; x62; x63; x64] ++ [x65; x66])
    = Done (Z.lxor (Z.lxor r2 (u32 (Z.of_nat (length [x65; x66]))))
              (u32 (Z.of_nat (length ([x61; x62; x63; x64] ++ [x65; x66]))))).
Proof.
  assert (H1 : is_u32 7) by (unfold is_u32; split; [discriminate | reflexivity]).
  assert (H2 : Z.of_nat (length [x61; x62; x63; x64]) mod 4 = 0) by reflexivity.
  assert (H3 : Z.of_nat (length ([x61; x62; x63; x64] ++ [x65; x66])) + 4 < 2 ^ 64)
    by reflexivity.
  split; [auto |].
  exact (Ppx_fold_blob_app false 7 [x61; x62; x63; x64] [x65; x66] H1 H2 H3).
Defined.

(** ** Short strings *)

Lemma le_word_inj (a : list byte) :
  forall b : list byte,
    length a = length b -> Spec.le_word a = Spec.le_word b -> a = b.
Proof.
  induction a as [| x a IH]; intros [| y b] Hlen Heq; try discriminate.
  - reflexivity.
  - cbn [Spec.le_word] in Heq. cbn [length] in Hlen.
    pose proof (byte_val_range x) as Hx. pose proof (byte_val_range y) as Hy.
    change (2 ^ 8) with 256 in *.
    assert (Hxy : byte_val x = byte_val y) by lia.
    assert (Hab : Spec.le_word a = Spec.le_word b) by lia.
    f_equal; [now apply byte_val_inj | apply IH; [lia | assumption]].
Qed.

Lemma le_word_short_range (l : list byte) :
  (length l <= 4)%nat -> is_u32 (Spec.le_word l).
Proof.
  intros Hl. unfold is_u32. change (2 ^ 32) with 4294967296.
  destruct l as [| b0 [| b1 [| b2 [| b3 [| b4 l]]]]]; cbn [Spec.le_word];
    try (cbn [length] in Hl; lia);
    repeat match goal with
      | |- context [byte_val ?b] =>
          lazymatch goal with
          | _ : 0 <= byte_val b < 256 |- _ => fail
          | _ => pose proof (byte_val_range b : 0 <= byte_val b < 256)
          end
      end;
    change (2 ^ 8) with 256; lia.
Qed.

(** The state before the length, for a buffer of at most four bytes: no
    step for the empty buffer, one step on its little-endian word
    otherwise. *)
Lemma mixed_state_short (h : Z) (l : list byte) :
  (0 < length l <= 4)%nat ->
  mixed_state h (Z.of_nat (length l)) l = Spec.mix_step h (Spec.le_word l).
Proof.
  intros Hl.
  destruct l as [| b0 [| b1 [| b2 [| b3 [| b4 l]]]]]; cbn [length] in Hl;
    try lia; reflexivity.
Qed.

Lemma Val_long_inj_u32 (x y : Z) :
  is_u32 x -> is_u32 y -> Val_long x = Val_long y -> x = y.
Proof.
  intros Hx Hy H. apply (f_equal Long_val) in H.
  now rewrite !Long_val_Val_long in H by now apply is_u32_is_long.
Qed.

(** X10. Two different strings of the same length, of at most four bytes,
    never give the same accumulator when folded from the same state: their
    little-endian words differ and the mixing step is one-to-one. *)
Theorem Ppx_fold_string_short_inj (be : bool) (st : Z) (a b : list byte) :
  length a = length b ->
  (length a <= 4)%nat ->
  a <> b ->
  Ppx_fold_string be st a <> Ppx_fold_string be st b.
Proof.
  intros Hlen Hshort Hne Heq. apply Hne.
  assert (Hfit : forall l : list byte,
             (length l <= 4)%nat -> Z.of_nat (length l) + 4 < 2 ^ 64).
  { intros l Hl. change (2 ^ 64) with 18446744073709551616. lia. }
  rewrite !Ppx_fold_string_refines in Heq by (apply Hfit; lia).
  set (h := u32 (Long_val st)) in *.
  assert (Hh : is_u32 h) by apply u32_range.
  assert (E : Spec.fold_blob h (Z.of_nat (length a)) a
              = Spec.fold_blob h (Z.of_nat (length b)) b).
  { apply Val_long_inj_u32; try (now apply fold_blob_range).
    injection Heq as E. exact E. }
  rewrite !fold_blob_mixed_state, <- Hlen in E.
  assert (Em : mixed_state h (Z.of_nat (length a)) a
               = mixed_state h (Z.of_nat (length a)) b).
  { rewrite <- (lxor_cancel_r (mixed_state h (Z.of_nat (length a)) a)
                  (u32 (Z.of_nat (length a)))).
    rewrite E. apply lxor_cancel_r. }
  destruct (Nat.eq_dec (length a) 0) as [Hz | Hnz].
  - destruct a; [| discriminate]. destruct b; [reflexivity | discriminate].
  - rewrite Hlen in Em at 2.
    rewrite !mixed_state_short in Em by lia.
    rewrite <- !MIX_mix_step in Em by assumption.
    apply le_word_inj; [assumption |].
    rewrite <- (unmix_word_MIX h (Spec.le_word a))
      by (assumption || apply le_word_short_range; lia).
    rewrite <- (unmix_word_MIX h (Spec.le_word b))
      by (assumption || apply le_word_short_range; lia).
    now rewrite Em.
Qed.

Lemma Ppx_fold_string_short_inj_witness :
  (length [x61; x62; x63] = length [x61; x62; x64] /\
   (length [x61; x62; x63] <= 4)%nat /\
   [x61; x62; x63] <> [x61; x62; x64]) /\
  Ppx_fold_string false (Val_long 7) [x61; x62; x63]
  <> Ppx_fold_string false (Val_long 7) [x61; x62; x64].
Proof.
  assert (H1 : length [x61; x62; x63] = length [x61; x62; x64]) by reflexivity.
  assert (H2 : (length [x61; x62; x63] <= 4)%nat) by (cbn; lia).
  assert (H3 : [x61; x62; x63] <> [x61; x62; x64]) by discriminate.
  split; [auto |].
  exact (Ppx_fold_string_short_inj false (Val_long 7) [x61; x62; x63]
           [x61; x62; x64] H1 H2 H3).
Defined.

(** ** The bytes that are read *)








